(** * Sovereign firehose filtering: a shallow embedding of the relay's
      jurisdiction classifier, its configuration and its metrics singleton.

    Go strings are byte sequences: they are modelled as [string], one
    [ascii] per byte, and [len] is [String.length].  Nil-able pointers and
    interfaces are [option]s, Go maps are [gmap]s, [int64] fields are [Z]. *)

From Stdlib Require Import ZArith NArith Ascii String List Bool.
From stdpp Require Import gmap strings list.

Local Open Scope string_scope.

(** ** The Go [strings] package, as far as the program uses it *)

Module strings.

(** [utf8.RuneSelf]: bytes below it are single-byte runes. *)
Definition RuneSelf : N := 128.

Fixpoint isASCII (s : string) : bool :=
  match s with
  | EmptyString => true
  | String c t => (N_of_ascii c <? RuneSelf)%N && isASCII t
  end.

Fixpoint mapBytes (f : ascii -> ascii) (s : string) : string :=
  match s with
  | EmptyString => EmptyString
  | String c t => String (f c) (mapBytes f t)
  end.

(** ['A' <= c && c <= 'Z'] then [c += 'a' - 'A']. *)
Definition lowerByte (c : ascii) : ascii :=
  if ((65 <=? N_of_ascii c) && (N_of_ascii c <=? 90))%N
  then ascii_of_N (N_of_ascii c + 32) else c.

(** ['a' <= c && c <= 'z'] then [c -= 'a' - 'A']. *)
Definition upperByte (c : ascii) : ascii :=
  if ((97 <=? N_of_ascii c) && (N_of_ascii c <=? 122))%N
  then ascii_of_N (N_of_ascii c - 32) else c.

Fixpoint HasPrefix (s prefix : string) {struct prefix} : bool :=
  match prefix, s with
  | EmptyString, _ => true
  | String p prefix', String c s' =>
      if Ascii.eqb p c then HasPrefix s' prefix' else false
  | String _ _, EmptyString => false
  end.

(** [Contains(s, substr)] is [Index(s, substr) >= 0]: some position of
    [s] starts with [substr]. *)
Fixpoint Contains (s substr : string) : bool :=
  HasPrefix s substr ||
  match s with
  | EmptyString => false
  | String _ s' => Contains s' substr
  end.

Section Unicode.

(** On input with a byte [>= RuneSelf], [ToLower] and [ToUpper] fall back
    to [Map(unicode.ToLower, s)] and [Map(unicode.ToUpper, s)], which
    consult the Unicode case tables of the Go runtime. *)
Variables mapUnicodeToLower mapUnicodeToUpper : string -> string.

Definition ToLower (s : string) : string :=
  if isASCII s then mapBytes lowerByte s else mapUnicodeToLower s.

Definition ToUpper (s : string) : string :=
  if isASCII s then mapBytes upperByte s else mapUnicodeToUpper s.

End Unicode.

End strings.

(** A Go [error]: [None] is [nil], [Some msg] is [errors.New(msg)]. *)
Definition error := option string.

(** ** bgs/filter_result.go *)

Record FilterResult := mkFilterResult {
  Pass : bool;
  Reason : string;
  HashOnly : bool
}.

(** The composite literal leaves [HashOnly] at its zero value. *)
Definition NewFilterResult (pass : bool) (reason : string) : FilterResult :=
  {| Pass := pass; Reason := reason; HashOnly := false |}.

Definition NewHashOnlyFilterResult (reason : string) : FilterResult :=
  {| Pass := false; Reason := reason; HashOnly := true |}.

(** ** Firehose events *)

(** The payload structs of [api/atproto], with the fields the program reads. *)
Record SyncSubscribeRepos_Commit := mkCommit {
  Commit_Repo : string;
  Commit_Seq : Z;
  Commit_Time : string
}.

Record SyncSubscribeRepos_Identity := mkIdentity {
  Identity_Did : string;
  Identity_Seq : Z
}.

Record SyncSubscribeRepos_Account := mkAccount {
  Account_Did : string;
  Account_Seq : Z;
  Account_Active : bool
}.

Record SyncSubscribeRepos_Sync := mkSync {
  Sync_Repo : string;
  Sync_Seq : Z
}.

(** [events.XRPCStreamEvent] and [stream.XRPCStreamEvent]: one nil-able
    pointer per event kind. *)
Record XRPCStreamEvent := mkXRPCStreamEvent {
  RepoCommit : option SyncSubscribeRepos_Commit;
  RepoIdentity : option SyncSubscribeRepos_Identity;
  RepoAccount : option SyncSubscribeRepos_Account;
  RepoSync : option SyncSubscribeRepos_Sync
}.

(** [bgs.StreamEvent]; [Time] is a clock reading in nanoseconds. *)
Record StreamEvent := mkStreamEvent {
  Repo : string;
  Kind : string;
  Time : Z;
  Seq : Z;
  Source : string;
  Country : string;
  Verified : bool
}.

Definition NewStreamEvent (now : Z) (repo kind : string) : StreamEvent :=
  {| Repo := repo; Kind := kind; Time := now; Seq := 0;
     Source := ""; Country := ""; Verified := false |}.

(** ** cmd/relay/types.go *)

(** [now] is what [time.Now()] reads.  The [if / else if] chain has no
    branch for [RepoSync] and no final [else]. *)
Definition ConvertXRPCToStreamEvent (now : Z) (xrpc : option XRPCStreamEvent)
  : option StreamEvent :=
  match xrpc with
  | None => None
  | Some x =>
      let event := {| Repo := ""; Kind := ""; Time := now; Seq := 0;
                      Source := ""; Country := ""; Verified := false |} in
      Some
        match RepoCommit x with
        | Some c =>
            {| Repo := Commit_Repo c; Kind := "commit"; Time := Time event;
               Seq := Commit_Seq c; Source := Source event;
               Country := Country event; Verified := Verified event |}
        | None =>
            match RepoIdentity x with
            | Some i =>
                {| Repo := Identity_Did i; Kind := "identity"; Time := Time event;
                   Seq := Identity_Seq i; Source := Source event;
                   Country := Country event; Verified := Verified event |}
            | None =>
                match RepoAccount x with
                | Some a =>
                    {| Repo := Account_Did a; Kind := "account"; Time := Time event;
                       Seq := Account_Seq a; Source := Source event;
                       Country := Country event; Verified := Verified event |}
                | None => event
                end
            end
        end
  end.

(** ** bgs/geographic_filter.go *)

(** The reader/writer lock guards every access below.  Critical sections
    run one at a time, so the lock has no state of its own here: a whole
    call is a function on the classifier, and goroutines that overlap are
    interleaved between their critical sections (see [schedule]). *)
Record CanadianGeographicFilter := mkFilter {
  cache : gmap string bool;
  ttl : Z;
  knownDIDs : gmap string bool
}.

Definition Hour : Z := 3600 * 1000000000.

Definition NewCanadianGeographicFilter : CanadianGeographicFilter :=
  {| cache := ∅; ttl := 24 * Hour; knownDIDs := ∅ |}.

Definition NewGeographicFilter (countryCode : string) : CanadianGeographicFilter :=
  let filter := NewCanadianGeographicFilter in
  filter.

Definition Initialize (f : CanadianGeographicFilter) : error := None.

Definition AddCanadianDID (f : CanadianGeographicFilter) (did : string)
  : CanadianGeographicFilter :=
  {| cache := <[did := true]> (cache f); ttl := ttl f;
     knownDIDs := <[did := true]> (knownDIDs f) |}.

(** A fresh map with every entry of the cache: the same finite map. *)
Definition GetCache (f : CanadianGeographicFilter) : gmap string bool :=
  map_fold (fun k v result => <[k := v]> result) ∅ (cache f).

Definition setCached (f : CanadianGeographicFilter) (did : string) (value : bool)
  : CanadianGeographicFilter :=
  {| cache := <[did := value]> (cache f); ttl := ttl f; knownDIDs := knownDIDs f |}.

Definition canadianKeywords : list string :=
  ["canadian"; "canada"; "toronto"; "vancouver"; "montreal";
   "calgary"; "ottawa"; "edmonton"; "winnipeg"; "quebec";
   "halifax"; "victoria"; "saskatoon"; "regina"; "fredericton"].

(** The [for ... range canadianKeywords] loop, with the return inside it and
    the two statements after it. *)
Fixpoint keywordLoop (f : CanadianGeographicFilter) (did didLower : string)
  (keywords : list string) : bool * CanadianGeographicFilter :=
  match keywords with
  | [] => (false, setCached f did false)
  | keyword :: rest =>
      if strings.Contains didLower keyword then (true, setCached f did true)
      else keywordLoop f did didLower rest
  end.

(** What a call yields: a returned value, or a panic that unwinds it. *)
Inductive outcome (A : Type) : Type :=
| Returned (a : A)
| Panicked.
Arguments Returned {A} a.
Arguments Panicked {A}.

Section Relay.

(** [strings.Map(unicode.ToLower, s)] and [strings.Map(unicode.ToUpper, s)]
    of the Go runtime, reached only for input outside ASCII. *)
Variables mapUnicodeToLower mapUnicodeToUpper : string -> string.

Definition isLikelyCanadian (f : CanadianGeographicFilter) (did : string)
  : bool * CanadianGeographicFilter :=
  match cache f !! did with
  | Some cached => (cached, f)
  | None =>
      match knownDIDs f !! did with
      | Some known => (known, setCached f did known)
      | None =>
          let didLower := strings.ToLower mapUnicodeToLower did in
          keywordLoop f did didLower canadianKeywords
      end
  end.

Definition ShouldIncludeInSovereignFeed (f : CanadianGeographicFilter)
  (event : option XRPCStreamEvent) : bool * CanadianGeographicFilter :=
  match event with
  | None => (false, f)
  | Some e =>
      match RepoCommit e, RepoIdentity e, RepoAccount e, RepoSync e with
      | Some c, _, _, _ => isLikelyCanadian f (Commit_Repo c)
      | None, Some i, _, _ => isLikelyCanadian f (Identity_Did i)
      | None, None, Some a, _ => isLikelyCanadian f (Account_Did a)
      | None, None, None, Some s => isLikelyCanadian f (Sync_Repo s)
      | None, None, None, None => (false, f)
      end
  end.

(** The calls a client of the filter can make, and a run of them in turn:
    each call runs as a whole before the next begins.  Calls that overlap
    are the subject of [schedule] below. *)
Inductive call :=
| CallShouldInclude (event : option XRPCStreamEvent)
| CallAddCanadianDID (did : string)
| CallGetCache
| CallInitialize.

Definition exec (f : CanadianGeographicFilter) (c : call) : CanadianGeographicFilter :=
  match c with
  | CallShouldInclude event => snd (ShouldIncludeInSovereignFeed f event)
  | CallAddCanadianDID did => AddCanadianDID f did
  | CallGetCache => f
  | CallInitialize => f
  end.

Definition run (f : CanadianGeographicFilter) (calls : list call)
  : CanadianGeographicFilter :=
  fold_left exec calls f.

(** ** bgs: sovereign configuration *)

Record SovereignConfig := mkSovereignConfig {
  Enabled : bool;
  CountryCode : string;
  DataRetentionDays : Z;
  PrivacyMode : string
}.

Definition validCodes : list string :=
  ["CA"; "US"; "GB"; "FR"; "DE"; "AU"; "NZ"; "JP"; "KR"; "IN"; "BR"; "MX"].

(** The [for ... range validCodes] loop with its [break]. *)
Fixpoint codeLoop (upperCode : string) (codes : list string) : bool :=
  match codes with
  | [] => false
  | code :: rest =>
      if String.eqb upperCode code then true else codeLoop upperCode rest
  end.

Definition Validate (sc : SovereignConfig) : error :=
  if negb (Enabled sc) then None
  else if String.eqb (CountryCode sc) "" then
    Some "country code is required when sovereignty is enabled"
  else if negb (String.length (CountryCode sc) =? 2)%nat then
    Some "country code must be 2 characters (ISO 3166-1 alpha-2)"
  else
    let upperCode := strings.ToUpper mapUnicodeToUpper (CountryCode sc) in
    let valid := codeLoop upperCode validCodes in
    if negb valid then Some "invalid country code" else None.

Record Config := mkConfig {
  DualMode : bool;
  Sovereign : SovereignConfig
}.

Definition IsSovereignEnabled (c : Config) : bool := Enabled (Sovereign c).

(** ** The endpoint list of the relay (BuildDocs, cmd/relay/sovereignty.go) *)

Record ServiceConfig := mkServiceConfig {
  ListenerBootTimeout : Z;
  SovereigntyEnabled : bool;
  SovereignCountryCode : string;
  SovereigntyMode : string
}.

Definition standardEndpoint : string := "/xrpc/com.atproto.sync.subscribeRepos".
Definition canadianEndpoint : string := "/xrpc/ca.atproto.sync.subscribeRepos".

Definition GetConfiguredEndpoints (config : ServiceConfig) : list string :=
  let endpoints := [standardEndpoint] in
  if SovereigntyEnabled config && String.eqb (SovereignCountryCode config) "CA"
  then endpoints ++ [canadianEndpoint]
  else endpoints.

(** ** bgs/sovereignty_metrics.go *)

(** The five collectors, by what they count.  [EventsProcessed] is indexed
    by its labels (result, country), [FilterLatency] keeps the durations
    observed per filter type, [ActiveConnections] is indexed by endpoint. *)
Record SovereigntyMetrics := mkMetrics {
  EventsProcessed : gmap (bool * string) nat;
  FilterLatency : gmap string (list Z);
  ActiveConnections : gmap string Z;
  CanadianEventsSent : nat;
  FilteredEvents : nat
}.

Definition ptr := nat.

(** [sync.Once]: its [done] flag. *)
Record Once := mkOnce { Once_done : bool }.

(** The package-level variables, the objects they point to, and the names
    held by the default registry of the metrics library, where [promauto]
    registers every collector it builds. *)
Record Globals := mkGlobals {
  sovereigntyMetricsInstance : option ptr;
  sovereigntyMetricsOnce : Once;
  heap : list SovereigntyMetrics;
  defaultRegistry : gset string
}.

Definition collectorNames : list string :=
  ["sovereignty_events_processed_total";
   "sovereignty_filter_latency_seconds";
   "sovereignty_active_connections";
   "sovereignty_canadian_events_sent_total";
   "sovereignty_filtered_events_total"].

(** [promauto.New...] for each name in turn: registering a name the registry
    already holds panics, and the earlier registrations stay. *)
Fixpoint mustRegisterAll (names : list string) (registry : gset string)
  : outcome unit * gset string :=
  match names with
  | [] => (Returned tt, registry)
  | name :: rest =>
      if decide (name ∈ registry) then (Panicked, registry)
      else mustRegisterAll rest ({[name]} ∪ registry)
  end.

Definition newMetricsValue : SovereigntyMetrics :=
  {| EventsProcessed := ∅; FilterLatency := ∅; ActiveConnections := ∅;
     CanadianEventsSent := 0; FilteredEvents := 0 |}.

(** The function literal passed to [sovereigntyMetricsOnce.Do]: the
    composite literal is evaluated, allocated, and its address assigned. *)
Definition buildInstance (g : Globals) : outcome unit * Globals :=
  match mustRegisterAll collectorNames (defaultRegistry g) with
  | (Returned _, registry) =>
      (Returned tt,
       {| sovereigntyMetricsInstance := Some (length (heap g));
          sovereigntyMetricsOnce := sovereigntyMetricsOnce g;
          heap := heap g ++ [newMetricsValue];
          defaultRegistry := registry |})
  | (Panicked, registry) =>
      (Panicked,
       {| sovereigntyMetricsInstance := sovereigntyMetricsInstance g;
          sovereigntyMetricsOnce := sovereigntyMetricsOnce g;
          heap := heap g;
          defaultRegistry := registry |})
  end.

(** [Once.Do(f)]: [f] runs only while [done] is unset, and [done] is set when
    [f] is left, by return or by panic. *)
Definition onceDo (f : Globals -> outcome unit * Globals) (g : Globals)
  : outcome unit * Globals :=
  if Once_done (sovereigntyMetricsOnce g) then (Returned tt, g)
  else
    let '(r, g') := f g in
    (r, {| sovereigntyMetricsInstance := sovereigntyMetricsInstance g';
           sovereigntyMetricsOnce := {| Once_done := true |};
           heap := heap g';
           defaultRegistry := defaultRegistry g' |}).

Definition NewSovereigntyMetrics (g : Globals) : outcome (option ptr) * Globals :=
  match onceDo buildInstance g with
  | (Returned _, g') => (Returned (sovereigntyMetricsInstance g'), g')
  | (Panicked, g') => (Panicked, g')
  end.

Definition ResetSovereigntyMetricsForTesting (g : Globals) : Globals :=
  {| sovereigntyMetricsInstance := None;
     sovereigntyMetricsOnce := {| Once_done := false |};
     heap := heap g;
     defaultRegistry := defaultRegistry g |}.

(** The package state when the process starts: nothing built, nothing of
    this package registered. *)
Definition processStart : Globals :=
  {| sovereigntyMetricsInstance := None;
     sovereigntyMetricsOnce := {| Once_done := false |};
     heap := [];
     defaultRegistry := ∅ |}.

(** [k] further calls in a row, with what each returned. *)
Fixpoint constructAgain (k : nat) (g : Globals)
  : list (outcome (option ptr)) * Globals :=
  match k with
  | O => ([], g)
  | S k' =>
      let '(r, g1) := NewSovereigntyMetrics g in
      let '(rs, g2) := constructAgain k' g1 in
      (r :: rs, g2)
  end.

(** ** bgs: the per-event filter of the relay *)

Record BGSConfig := mkBGSConfig {
  BGS_SovereigntyEnabled : bool;
  BGS_SovereignCountryCode : string;
  BGS_SovereigntyMode : string
}.

Record BGS := mkBGS {
  config : BGSConfig;
  geographicFilter : option CanadianGeographicFilter;
  sovereigntyMetrics : option ptr
}.

Definition bump (n : option nat) : option nat := Some (S (default 0 n)).

Definition observe (d : Z) (l : option (list Z)) : option (list Z) :=
  Some (default [] l ++ [d])%list.

(** Modelled from the spec: the recording half of [BGS.sovereignEventFilter],
    whose file (bgs/bgs.go) is not under src/.  Section 4.3: the processed
    counter labelled by (outcome, jurisdiction) is incremented, the latency is
    observed, and the sent or the filtered counter is incremented. *)
Definition recordDecision (included : bool) (country : string) (elapsed : Z)
  (m : SovereigntyMetrics) : SovereigntyMetrics :=
  {| EventsProcessed := partial_alter bump (included, country) (EventsProcessed m);
     FilterLatency := partial_alter (observe elapsed) "geographic" (FilterLatency m);
     ActiveConnections := ActiveConnections m;
     CanadianEventsSent :=
       if included then S (CanadianEventsSent m) else CanadianEventsSent m;
     FilteredEvents :=
       if included then FilteredEvents m else S (FilteredEvents m) |}.

(** Modelled from the spec: [BGS.sovereignEventFilter] (bgs/bgs.go is not
    under src/; its tests are).  Section 4.3: with no classifier attached the
    decision is false; otherwise it is the classifier's, and it is recorded
    in the metrics object the relay points to.  [elapsed] is the latency
    the clock measured. *)
Definition sovereignEventFilter (elapsed : Z) (b : BGS) (objects : list SovereigntyMetrics)
  (event : option XRPCStreamEvent) : bool * BGS * list SovereigntyMetrics :=
  match geographicFilter b with
  | None => (false, b, objects)
  | Some f =>
      let '(included, f') := ShouldIncludeInSovereignFeed f event in
      let b' := {| config := config b; geographicFilter := Some f';
                   sovereigntyMetrics := sovereigntyMetrics b |} in
      let objects' :=
        match sovereigntyMetrics b with
        | Some p =>
            alter (recordDecision included (BGS_SovereignCountryCode (config b)) elapsed)
                  p objects
        | None => objects
        end in
      (included, b', objects')
  end.

(** ** Vocabulary of the properties *)

(** [substr] occurs in [s]. *)
Definition substringOf (substr s : string) : Prop :=
  exists pre post : string, s = pre +:+ substr +:+ post.

(** The identifier an event carries, read off the way the switch of
    [ShouldIncludeInSovereignFeed] reads it. *)
Definition subjectOf (e : XRPCStreamEvent) : option string :=
  match RepoCommit e, RepoIdentity e, RepoAccount e, RepoSync e with
  | Some c, _, _, _ => Some (Commit_Repo c)
  | None, Some i, _, _ => Some (Identity_Did i)
  | None, None, Some a, _ => Some (Account_Did a)
  | None, None, None, Some s => Some (Sync_Repo s)
  | None, None, None, None => None
  end.

(** A nil event, or one with none of its four kinds set. *)
Definition carriesNoSubject (event : option XRPCStreamEvent) : Prop :=
  match event with
  | None => True
  | Some e =>
      RepoCommit e = None /\ RepoIdentity e = None /\
      RepoAccount e = None /\ RepoSync e = None
  end.

(** The invariant of a filter result: hash-only results do not pass. *)
Definition hashOnlyExcludesPass (r : FilterResult) : bool :=
  implb (HashOnly r) (negb (Pass r)).

(** No call writes an override for [did]. *)
Definition noOverrideOf (did : string) (calls : list call) : Prop :=
  Forall (fun c => c <> CallAddCanadianDID did) calls.

(** The once-gate has not fired. *)
Definition gateOpen (g : Globals) : Prop :=
  Once_done (sovereigntyMetricsOnce g) = false.

(** None of the five collector names is in the default registry. *)
Definition collectorsUnregistered (g : Globals) : Prop :=
  forall name, In name collectorNames -> name ∉ defaultRegistry g.

(** ** Inputs for concrete runs *)

(** For runs on ASCII input, where the case tables of the runtime are never
    consulted: any function can stand in for them. *)
Definition noCaseTables (s : string) : string := s.

Definition commitOf (did : string) : XRPCStreamEvent :=
  {| RepoCommit := Some {| Commit_Repo := did; Commit_Seq := 1; Commit_Time := "" |};
     RepoIdentity := None; RepoAccount := None; RepoSync := None |}.

Definition syncOf (did : string) : XRPCStreamEvent :=
  {| RepoCommit := None; RepoIdentity := None; RepoAccount := None;
     RepoSync := Some {| Sync_Repo := did; Sync_Seq := 7 |} |}.

Definition emptyEvent : XRPCStreamEvent :=
  {| RepoCommit := None; RepoIdentity := None; RepoAccount := None;
     RepoSync := None |}.

Definition testBGS : BGS :=
  {| config := {| BGS_SovereigntyEnabled := false; BGS_SovereignCountryCode := "";
                  BGS_SovereigntyMode := "" |};
     geographicFilter := None;
     sovereigntyMetrics := None |}.

(** A classifier that has already cached a heuristic false for the subject. *)
Definition cachedFalse : CanadianGeographicFilter :=
  snd (isLikelyCanadian NewCanadianGeographicFilter "did:plc:american-user").

Definition cachedTrue : CanadianGeographicFilter :=
  snd (isLikelyCanadian NewCanadianGeographicFilter "did:plc:toronto-cached").

Definition laterCalls : list call :=
  [CallAddCanadianDID "did:plc:someone-else";
   CallShouldInclude (Some (commitOf "did:plc:london-user"));
   CallShouldInclude (Some (commitOf "did:plc:toronto-cached"));
   CallInitialize].

Definition classify (did : string) : bool :=
  fst (ShouldIncludeInSovereignFeed NewCanadianGeographicFilter
         (Some (commitOf did))).

Definition validates (enabled : bool) (code : string) : bool :=
  match Validate
          {| Enabled := enabled; CountryCode := code;
             DataRetentionDays := 30; PrivacyMode := "strict" |} with
  | None => true
  | Some _ => false
  end.

Definition enabledUS : ServiceConfig :=
  {| ListenerBootTimeout := 5 * 1000000000; SovereigntyEnabled := true;
     SovereignCountryCode := "US"; SovereigntyMode := "strict" |}.

(** A path of the list other than the standard one. *)
Definition sovereignPathIncluded (config : ServiceConfig) : Prop :=
  exists p, In p (GetConfiguredEndpoints config) /\ p <> standardEndpoint.

(** ** Vocabulary of the further properties *)

(** What a miss computes: the keyword heuristic on its own. *)
Definition matchesKeyword (did : string) : bool :=
  existsb (strings.Contains (strings.ToLower mapUnicodeToLower did)) canadianKeywords.

(** The answer of a query, read off the state it meets. *)
Definition answer (f : CanadianGeographicFilter) (did : string) : bool :=
  match cache f !! did with
  | Some cached => cached
  | None =>
      match knownDIDs f !! did with
      | Some known => known
      | None => matchesKeyword did
      end
  end.

(** Two queries in a row, with the answers in the order asked. *)
Definition queryTwice (f : CanadianGeographicFilter) (first second : string)
  : bool * bool * CanadianGeographicFilter :=
  let '(r1, f1) := isLikelyCanadian f first in
  let '(r2, f2) := isLikelyCanadian f1 second in
  (r1, r2, f2).

(** The same configuration up to the fields [Validate] reads, with the
    country code compared after upper-casing. *)
Definition sameForValidate (a b : SovereignConfig) : Prop :=
  Enabled a = Enabled b
  /\ strings.ToUpper mapUnicodeToUpper (CountryCode a)
     = strings.ToUpper mapUnicodeToUpper (CountryCode b).





(** The package state after the first construction of a process. *)
Definition builtOnce : Globals := snd (NewSovereigntyMetrics processStart).

Definition lowerCaseConfig : SovereignConfig :=
  {| Enabled := true; CountryCode := "ca"; DataRetentionDays := 30;
     PrivacyMode := "strict" |}.

Definition upperCaseConfig : SovereignConfig :=
  {| Enabled := true; CountryCode := "CA"; DataRetentionDays := -5;
     PrivacyMode := "standard" |}.

(** ** Goroutines sharing one classifier *)

(** [isLikelyCanadian] holds the lock only inside three critical sections:
    the cache look-up, the known-subjects look-up, and [setCached].  Between
    them any other goroutine may run.  [progress] says which part of a call
    is still to come. *)
Inductive progress :=
| BeforeCacheLookup
| BeforeKnownLookup
| BeforeHeuristic
| BeforeCommit (value : bool)
| Finished (result : bool).

(** The keyword loop as far as it touches no shared state: the value it is
    about to hand to [setCached] and return. *)
Fixpoint keywordScan (didLower : string) (keywords : list string) : bool :=
  match keywords with
  | [] => false
  | keyword :: rest =>
      if strings.Contains didLower keyword then true
      else keywordScan didLower rest
  end.

(** One stretch of a call, run without interruption: a critical section, or
    the lock-free heuristic. *)
Definition stepQuery (f : CanadianGeographicFilter) (did : string) (p : progress)
  : progress * CanadianGeographicFilter :=
  match p with
  | BeforeCacheLookup =>
      match cache f !! did with
      | Some cached => (Finished cached, f)
      | None => (BeforeKnownLookup, f)
      end
  | BeforeKnownLookup =>
      match knownDIDs f !! did with
      | Some known => (BeforeCommit known, f)
      | None => (BeforeHeuristic, f)
      end
  | BeforeHeuristic =>
      let didLower := strings.ToLower mapUnicodeToLower did in
      (BeforeCommit (keywordScan didLower canadianKeywords), f)
  | BeforeCommit value => (Finished value, setCached f did value)
  | Finished result => (Finished result, f)
  end.

(** A goroutine inside [ShouldIncludeInSovereignFeed]: querying a subject,
    or already returned false for want of one. *)
Inductive goroutine :=
| Querying (did : string) (p : progress)
| Refused.

Definition enter (event : option XRPCStreamEvent) : goroutine :=
  match event with
  | None => Refused
  | Some e =>
      match subjectOf e with
      | Some did => Querying did BeforeCacheLookup
      | None => Refused
      end
  end.

(** What the call returned, once it has. *)
Definition resultOf (g : goroutine) : option bool :=
  match g with
  | Querying _ (Finished result) => Some result
  | Querying _ _ => None
  | Refused => Some false
  end.

Record system := mkSystem {
  shared : CanadianGeographicFilter;
  goroutines : list goroutine
}.

(** What the scheduler can let happen next: a goroutine enters the
    inclusion check, goroutine [i] runs its next stretch, or some goroutine
    runs [AddCanadianDID], which is one critical section. *)
Inductive action :=
| Enter (event : option XRPCStreamEvent)
| Advance (i : nat)
| Override (did : string).

Definition act (s : system) (a : action) : system :=
  match a with
  | Enter event =>
      {| shared := shared s; goroutines := goroutines s ++ [enter event] |}
  | Advance i =>
      match goroutines s !! i with
      | Some (Querying did p) =>
          let '(p', f') := stepQuery (shared s) did p in
          {| shared := f'; goroutines := <[i := Querying did p']> (goroutines s) |}
      | _ => s
      end
  | Override did =>
      {| shared := AddCanadianDID (shared s) did; goroutines := goroutines s |}
  end.

Definition schedule (s : system) (actions : list action) : system :=
  fold_left act actions s.

Definition newSystem : system :=
  {| shared := NewCanadianGeographicFilter; goroutines := [] |}.

(** A whole call with nothing in between: enter, then four stretches. *)
Definition alone (s : system) (event : option XRPCStreamEvent) : list action :=
  let i := length (goroutines s) in
  [Enter event; Advance i; Advance i; Advance i; Advance i].

(** A value for [did] is justified when it is the heuristic's answer, or is
    true while [did] is a known subject. *)
Definition justified (f : CanadianGeographicFilter) (did : string) (value : bool)
  : Prop :=
  value = matchesKeyword did
  \/ (value = true /\ knownDIDs f !! did = Some true).

Definition justifiedAt (f : CanadianGeographicFilter) (g : goroutine) : Prop :=
  match g with
  | Querying did (BeforeCommit value) => justified f did value
  | Querying did (Finished result) => justified f did result
  | _ => True
  end.

(** What holds of every state the goroutines can reach. *)
Definition sound (s : system) : Prop :=
  (forall did known, knownDIDs (shared s) !! did = Some known ->
     known = true /\ is_Some (cache (shared s) !! did))
  /\ (forall did cached, cache (shared s) !! did = Some cached ->
        justified (shared s) did cached)
  /\ (forall i g, goroutines s !! i = Some g -> justifiedAt (shared s) g).

(** Every subject known as true in [f] is so in [f']. *)
Definition knownGrows (f f' : CanadianGeographicFilter) : Prop :=
  forall did, knownDIDs f !! did = Some true -> knownDIDs f' !! did = Some true.

(** A query for [did] that has passed its look-ups without finding [did]:
    what it will write no longer depends on the known subjects. *)
Definition stale (did : string) (g : goroutine) : Prop :=
  g = Querying did BeforeHeuristic \/ g = Querying did (BeforeCommit false).

(** The override for [did] is in force: cached and known as true, no stale
    query for it in flight, and no query entered from position [from] on has
    returned false. *)
Definition inForce (did : string) (from : nat) (s : system) : Prop :=
  cache (shared s) !! did = Some true
  /\ knownDIDs (shared s) !! did = Some true
  /\ (forall i g, goroutines s !! i = Some g ->
        ~ stale did g
        /\ (from <= i -> g <> Querying did (Finished false))).

(** The schedule that loses an override: goroutine 0 queries the subject
    and passes both look-ups and the heuristic; the override is written;
    goroutine 0 then commits what it computed; goroutine 1 queries. *)
Definition losingSchedule (did : string) : list action :=
  [Enter (Some (commitOf did)); Advance 0; Advance 0; Advance 0;
   Override did;
   Advance 0;
   Enter (Some (commitOf did)); Advance 1].

(** The schedule that flips a cached value: as before, but goroutine 1
    queries between the override and the late commit, and goroutine 2 after
    it. *)
Definition flippingSchedule (did : string) : list action :=
  [Enter (Some (commitOf did)); Advance 0; Advance 0; Advance 0;
   Override did;
   Enter (Some (commitOf did)); Advance 1;
   Advance 0;
   Enter (Some (commitOf did)); Advance 2].

(** * Properties *)

(** ** Substring search *)

Lemma HasPrefix_spec (prefix s : string) :
  strings.HasPrefix s prefix = true <-> exists post, s = prefix +:+ post.
Proof.
  revert s. induction prefix as [|p prefix' IH]; intros s; simpl.
  - split; [intros _; exists s; reflexivity | reflexivity].
  - destruct s as [|c s'].
    + split; [discriminate | intros [post H]; discriminate H].
    + destruct (Ascii.eqb_spec p c) as [->|Hne].
      * rewrite IH. split; intros [post H]; exists post.
        -- simpl. now rewrite H.
        -- simpl in H. now inversion H.
      * split; [discriminate | intros [post H]].
        simpl in H. inversion H; subst. now elim Hne.
Qed.

Lemma Contains_spec (substr s : string) :
  strings.Contains s substr = true <-> substringOf substr s.
Proof.
  unfold substringOf.
  induction s as [|c s' IH]; simpl; rewrite orb_true_iff, HasPrefix_spec.
  - split.
    + intros [[post H]|H]; [|discriminate]. exists "", post. exact H.
    + intros [[|a pre] [post H]]; [|discriminate H]. left. exists post. exact H.
  - rewrite IH. split.
    + intros [[post H]|[pre [post H]]].
      * exists "", post. exact H.
      * exists (String c pre), post. simpl. now rewrite H.
    + intros [[|a pre] [post H]].
      * left. exists post. exact H.
      * right. exists pre, post. simpl in H. now inversion H.
Qed.

(** ** The keyword loop *)

Lemma keywordLoop_existsb f did didLower keywords :
  keywordLoop f did didLower keywords =
  (existsb (strings.Contains didLower) keywords,
   setCached f did (existsb (strings.Contains didLower) keywords)).
Proof.
  induction keywords as [|keyword rest IH]; simpl; [reflexivity|].
  destruct (strings.Contains didLower keyword); [reflexivity | exact IH].
Qed.

Lemma matchesKeyword_iff didLower :
  existsb (strings.Contains didLower) canadianKeywords = true <->
  exists keyword, In keyword canadianKeywords /\ substringOf keyword didLower.
Proof.
  rewrite existsb_exists.
  split; intros [keyword [Hin H]]; exists keyword; split; auto;
    now apply Contains_spec.
Qed.

Example toronto_matches :
  isLikelyCanadian NewCanadianGeographicFilter "did:plc:Toronto-user-123"
  = (true, setCached NewCanadianGeographicFilter "did:plc:Toronto-user-123" true).
Proof. reflexivity. Qed.

Example unknown_denied :
  fst (isLikelyCanadian NewCanadianGeographicFilter "did:plc:unknown789") = false.
Proof. reflexivity. Qed.

(** C3. A subject found neither in the cache nor among the known subjects
    is classified true exactly when its lower-cased identifier contains one
    of the fixed keywords, false otherwise, and the answer is then stored in
    the cache under that identifier (nothing else changes). *)
Theorem isLikelyCanadian_miss_is_keyword_match
  (f : CanadianGeographicFilter) (did : string) :
  cache f !! did = None ->
  knownDIDs f !! did = None ->
  let didLower := strings.ToLower mapUnicodeToLower did in
  let result := fst (isLikelyCanadian f did) in
  let f' := snd (isLikelyCanadian f did) in
  (result = true <->
     exists keyword, In keyword canadianKeywords /\ substringOf keyword didLower)
  /\ (result = false <->
        forall keyword, In keyword canadianKeywords -> ~ substringOf keyword didLower)
  /\ cache f' = <[did := result]> (cache f)
  /\ cache f' !! did = Some result
  /\ knownDIDs f' = knownDIDs f.
Proof.
  intros Hcache Hknown didLower result f'.
  subst result f'. unfold isLikelyCanadian.
  rewrite Hcache, Hknown, keywordLoop_existsb. fold didLower.
  cbn [fst snd cache knownDIDs setCached].
  pose proof (matchesKeyword_iff didLower) as Hiff.
  split; [exact Hiff|].
  split; [|split; [reflexivity|split; [apply lookup_insert_eq | reflexivity]]].
  destruct (existsb (strings.Contains didLower) canadianKeywords) eqn:E.
  - split; [discriminate|]. intros Hnone.
    destruct (proj1 Hiff eq_refl) as [keyword [Hin Hsub]].
    exfalso. exact (Hnone keyword Hin Hsub).
  - split; [|reflexivity]. intros _ keyword Hin Hsub.
    assert (Htrue : false = true) by (apply Hiff; eauto).
    discriminate Htrue.
Qed.

(** ** Events without a subject *)

Lemma ShouldInclude_by_subject f e :
  ShouldIncludeInSovereignFeed f (Some e) =
  match subjectOf e with
  | Some did => isLikelyCanadian f did
  | None => (false, f)
  end.
Proof.
  unfold ShouldIncludeInSovereignFeed, subjectOf.
  destruct (RepoCommit e), (RepoIdentity e), (RepoAccount e), (RepoSync e);
    reflexivity.
Qed.

(** C1. On a nil event, and on an event none of whose kinds (commit,
    identity, account, sync) is set, the inclusion check answers false; it
    returns normally and leaves the classifier as it was. *)
Theorem ShouldInclude_fails_closed
  (f : CanadianGeographicFilter) (event : option XRPCStreamEvent) :
  carriesNoSubject event ->
  ShouldIncludeInSovereignFeed f event = (false, f).
Proof.
  destruct event as [e|]; simpl; [|reflexivity].
  intros (-> & -> & -> & ->). reflexivity.
Qed.

(** ** Filter results *)

(** C9. Both constructors build results in which HashOnly implies not Pass:
    [NewFilterResult] always leaves HashOnly false, [NewHashOnlyFilterResult]
    always sets Pass false and HashOnly true. *)
Theorem constructors_keep_hash_only_invariant (pass : bool) (reason : string) :
  HashOnly (NewFilterResult pass reason) = false
  /\ Pass (NewFilterResult pass reason) = pass
  /\ Reason (NewFilterResult pass reason) = reason
  /\ Pass (NewHashOnlyFilterResult reason) = false
  /\ HashOnly (NewHashOnlyFilterResult reason) = true
  /\ Reason (NewHashOnlyFilterResult reason) = reason
  /\ hashOnlyExcludesPass (NewFilterResult pass reason) = true
  /\ hashOnlyExcludesPass (NewHashOnlyFilterResult reason) = true.
Proof. repeat split. Qed.

(** ** Conversion to stream events *)

(** C10. The conversion maps nil to nil; an event with no commit, identity
    or account payload (a sync event included, whose payload is never read)
    becomes a non-nil stream event with empty Repo, empty Kind and Seq 0,
    while the classifier, on the same sync event, does read the subject out
    of the sync payload. *)
Theorem Convert_drops_sync_subject (now : Z) (x : XRPCStreamEvent) :
  RepoCommit x = None -> RepoIdentity x = None -> RepoAccount x = None ->
  ConvertXRPCToStreamEvent now None = None
  /\ (exists ev, ConvertXRPCToStreamEvent now (Some x) = Some ev
                 /\ Repo ev = "" /\ Kind ev = "" /\ Seq ev = 0%Z)
  /\ (forall f s, RepoSync x = Some s ->
        subjectOf x = Some (Sync_Repo s)
        /\ ShouldIncludeInSovereignFeed f (Some x) = isLikelyCanadian f (Sync_Repo s)).
Proof.
  intros Hc Hi Ha. split; [reflexivity|]. split.
  - unfold ConvertXRPCToStreamEvent. rewrite Hc, Hi, Ha.
    eexists. split; [reflexivity|]. repeat split.
  - intros f s Hs.
    rewrite ShouldInclude_by_subject. unfold subjectOf.
    rewrite Hc, Hi, Ha, Hs. split; reflexivity.
Qed.

(** ** Configuration *)

Lemma codeLoop_In upperCode codes :
  codeLoop upperCode codes = true <-> In upperCode codes.
Proof.
  induction codes as [|code rest IH]; simpl.
  - split; [discriminate | contradiction].
  - destruct (String.eqb_spec upperCode code) as [->|Hne].
    + split; auto.
    + rewrite IH. split; [auto | intros [H|H]; [congruence | exact H]].
Qed.

Lemma Validate_disabled sc : Enabled sc = false -> Validate sc = None.
Proof. intros H. unfold Validate. now rewrite H. Qed.

(** C5. [Validate] returns an error exactly when the configuration is
    enabled and its country code is empty, or not 2 long ([len], in bytes),
    or, upper-cased, not in the allow-list.  A disabled configuration is
    valid whatever its country code, and "ca", "CA" and "Ca" validate alike
    (no error) when enabled. *)
Theorem Validate_error_iff (sc : SovereignConfig) :
  (Validate sc <> None <->
     Enabled sc = true /\
     (CountryCode sc = ""
      \/ String.length (CountryCode sc) <> 2
      \/ ~ In (strings.ToUpper mapUnicodeToUpper (CountryCode sc)) validCodes))
  /\ (forall code,
        Validate {| Enabled := false; CountryCode := code;
                    DataRetentionDays := DataRetentionDays sc;
                    PrivacyMode := PrivacyMode sc |} = None)
  /\ (let enabledWith code :=
        {| Enabled := true; CountryCode := code;
           DataRetentionDays := DataRetentionDays sc;
           PrivacyMode := PrivacyMode sc |} in
      Validate (enabledWith "ca") = Validate (enabledWith "CA")
      /\ Validate (enabledWith "Ca") = Validate (enabledWith "CA")
      /\ Validate (enabledWith "CA") = None).
Proof.
  split; [|split; [reflexivity | repeat split]].
  unfold Validate.
  destruct (Enabled sc); cbn [negb].
  2:{ split; [congruence | intros [H _]; discriminate H]. }
  destruct (String.eqb_spec (CountryCode sc) "") as [He|He].
  { split; [auto | discriminate]. }
  destruct (Nat.eqb_spec (String.length (CountryCode sc)) 2) as [Hl|Hl];
    cbn [negb].
  2:{ split; [auto | discriminate]. }
  cbv zeta.
  destruct (codeLoop (strings.ToUpper mapUnicodeToUpper (CountryCode sc)) validCodes)
    eqn:E; cbn [negb].
  - apply codeLoop_In in E.
    split; [congruence | intros [_ [H|[H|H]]]; contradiction].
  - split; [|discriminate]. intros _. split; [reflexivity|].
    right. right. intros Hin. apply codeLoop_In in Hin. congruence.
Qed.

(** ** Endpoints *)

Lemma GetConfiguredEndpoints_cases config :
  GetConfiguredEndpoints config =
  if SovereigntyEnabled config && String.eqb (SovereignCountryCode config) "CA"
  then [standardEndpoint; canadianEndpoint] else [standardEndpoint].
Proof. unfold GetConfiguredEndpoints. now destruct (_ && _). Qed.

(** C8, amended. The endpoint list always holds the standard firehose path,
    first; it holds the Canadian sovereign path exactly when the
    configuration is enabled and its country code is exactly "CA"; it holds
    no other path. *)
Theorem GetConfiguredEndpoints_spec (config : ServiceConfig) :
  In standardEndpoint (GetConfiguredEndpoints config)
  /\ head (GetConfiguredEndpoints config) = Some standardEndpoint
  /\ (In canadianEndpoint (GetConfiguredEndpoints config) <->
        SovereigntyEnabled config = true /\ SovereignCountryCode config = "CA")
  /\ (forall p, In p (GetConfiguredEndpoints config) ->
        p = standardEndpoint \/ p = canadianEndpoint).
Proof.
  rewrite GetConfiguredEndpoints_cases.
  assert (Hne : standardEndpoint <> canadianEndpoint) by discriminate.
  destruct (SovereigntyEnabled config);
    destruct (String.eqb_spec (SovereignCountryCode config) "CA") as [Hc|Hc];
    cbn [andb]; (split; [now left|]); (split; [reflexivity|]); split.
  all: try (intros p [H|[H|[]]]; auto; fail).
  all: try (intros p [H|[]]; auto; fail).
  - split; [auto | intros _; right; now left].
  - split; [intros [H|[]]; congruence | intros [_ H]; contradiction].
  - split; [intros [H|[]]; congruence | intros [H _]; discriminate H].
  - split; [intros [H|[]]; congruence | intros [H _]; discriminate H].
Qed.

(** ** The cache across calls *)

Lemma isLikelyCanadian_hit f did cached :
  cache f !! did = Some cached -> isLikelyCanadian f did = (cached, f).
Proof. intros H. unfold isLikelyCanadian. now rewrite H. Qed.

(** Whatever path a query takes, its answer is in the cache afterwards. *)
Lemma isLikelyCanadian_caches f did :
  cache (snd (isLikelyCanadian f did)) !! did = Some (fst (isLikelyCanadian f did)).
Proof.
  unfold isLikelyCanadian.
  destruct (cache f !! did) as [cached|] eqn:Hc; [exact Hc|].
  destruct (knownDIDs f !! did) as [known|].
  - apply lookup_insert_eq.
  - rewrite keywordLoop_existsb. apply lookup_insert_eq.
Qed.

Lemma isLikelyCanadian_other f did did' :
  did' <> did ->
  cache (snd (isLikelyCanadian f did')) !! did = cache f !! did.
Proof.
  intros Hne. unfold isLikelyCanadian.
  destruct (cache f !! did') as [cached|]; [reflexivity|].
  destruct (knownDIDs f !! did') as [known|].
  - now apply lookup_insert_ne.
  - rewrite keywordLoop_existsb. now apply lookup_insert_ne.
Qed.

Lemma isLikelyCanadian_keeps f did did' cached :
  cache f !! did = Some cached ->
  cache (snd (isLikelyCanadian f did')) !! did = Some cached.
Proof.
  intros H. destruct (decide (did' = did)) as [->|Hne].
  - now rewrite (isLikelyCanadian_hit _ _ _ H).
  - now rewrite isLikelyCanadian_other.
Qed.

Lemma ShouldInclude_keeps f event did cached :
  cache f !! did = Some cached ->
  cache (snd (ShouldIncludeInSovereignFeed f event)) !! did = Some cached.
Proof.
  intros H. destruct event as [e|]; [|exact H].
  rewrite ShouldInclude_by_subject.
  destruct (subjectOf e); [now apply isLikelyCanadian_keeps | exact H].
Qed.

(** The snapshot is the cache, entry for entry. *)
Lemma GetCache_copy f : GetCache f = cache f.
Proof.
  unfold GetCache.
  apply (map_fold_weak_ind (fun result m => result = m)); [reflexivity|].
  intros k v m result _ ->. reflexivity.
Qed.

Lemma exec_keeps f c did cached :
  c <> CallAddCanadianDID did ->
  cache f !! did = Some cached ->
  cache (exec f c) !! did = Some cached.
Proof.
  intros Hc H. destruct c as [event|did'| |]; simpl; auto.
  - now apply ShouldInclude_keeps.
  - rewrite lookup_insert_ne; [exact H | congruence].
Qed.

Lemma exec_keeps_true f c did :
  cache f !! did = Some true -> cache (exec f c) !! did = Some true.
Proof.
  intros H. destruct c as [event|did'| |]; simpl; auto.
  - now apply ShouldInclude_keeps.
  - destruct (decide (did' = did)) as [->|Hne].
    + apply lookup_insert_eq.
    + now rewrite lookup_insert_ne.
Qed.

Lemma run_keeps calls : forall f did cached,
  noOverrideOf did calls ->
  cache f !! did = Some cached ->
  cache (run f calls) !! did = Some cached.
Proof.
  induction calls as [|c calls IH]; intros f did cached Hno H; [exact H|].
  inversion Hno as [|? ? Hc Hrest]; subst.
  simpl. apply IH; [exact Hrest | now apply exec_keeps].
Qed.

Lemma run_keeps_true calls : forall f did,
  cache f !! did = Some true -> cache (run f calls) !! did = Some true.
Proof.
  induction calls as [|c calls IH]; intros f did H; [exact H|].
  simpl. apply IH. now apply exec_keeps_true.
Qed.

(** Calls in turn.  When every call runs as a whole, none between another's
    look-ups and its write: after [AddCanadianDID did], whatever the
    classifier held before (a cached false for [did] included) and whatever
    calls follow, every inclusion query for an event about [did] answers
    true. *)
Theorem override_wins
  (f : CanadianGeographicFilter) (did : string) (calls : list call)
  (e : XRPCStreamEvent) :
  subjectOf e = Some did ->
  let f' := run (AddCanadianDID f did) calls in
  ShouldIncludeInSovereignFeed f' (Some e) = (true, f')
  /\ isLikelyCanadian f' did = (true, f')
  /\ cache (AddCanadianDID f did) !! did = Some true.
Proof.
  intros Hs f'.
  assert (Hadd : cache (AddCanadianDID f did) !! did = Some true)
    by apply lookup_insert_eq.
  assert (H : cache f' !! did = Some true) by now apply run_keeps_true.
  rewrite ShouldInclude_by_subject, Hs.
  rewrite (isLikelyCanadian_hit _ _ _ H). auto.
Qed.

(** Calls in turn.  When every call runs as a whole: once the cache holds a
    classification for a subject, every later query for it, after any calls
    that write no override for that subject, returns that same value and
    leaves the cache entry as it is. *)
Theorem cached_classification_is_stable
  (f : CanadianGeographicFilter) (did : string) (cached : bool)
  (calls : list call) (e : XRPCStreamEvent) :
  cache f !! did = Some cached ->
  noOverrideOf did calls ->
  subjectOf e = Some did ->
  let f' := run f calls in
  ShouldIncludeInSovereignFeed f' (Some e) = (cached, f')
  /\ isLikelyCanadian f' did = (cached, f')
  /\ cache f' !! did = Some cached.
Proof.
  intros Hc Hno Hs f'.
  assert (H : cache f' !! did = Some cached) by now apply run_keeps.
  rewrite ShouldInclude_by_subject, Hs.
  rewrite (isLikelyCanadian_hit _ _ _ H). auto.
Qed.

(** ** The metrics singleton *)

Lemma New_when_done g :
  Once_done (sovereigntyMetricsOnce g) = true ->
  NewSovereigntyMetrics g = (Returned (sovereigntyMetricsInstance g), g).
Proof. intros H. unfold NewSovereigntyMetrics, onceDo. now rewrite H. Qed.

Lemma New_returns g r g1 :
  NewSovereigntyMetrics g = (r, g1) ->
  Once_done (sovereigntyMetricsOnce g1) = true
  /\ forall m, r = Returned m -> m = sovereigntyMetricsInstance g1.
Proof.
  unfold NewSovereigntyMetrics, onceDo.
  destruct (Once_done (sovereigntyMetricsOnce g)) eqn:Hd.
  - intros [= <- <-]. split; [exact Hd | now intros m [= <-]].
  - destruct (buildInstance g) as [[u|] g'];
      intros [= <- <-]; (split; [reflexivity|]); [now intros m [= <-] | discriminate].
Qed.

Lemma constructAgain_settled k : forall g,
  Once_done (sovereigntyMetricsOnce g) = true ->
  constructAgain k g = (repeat (Returned (sovereigntyMetricsInstance g)) k, g).
Proof.
  induction k as [|k IH]; intros g Hd; simpl; [reflexivity|].
  rewrite (New_when_done _ Hd), (IH _ Hd). reflexivity.
Qed.

Lemma mustRegisterAll_fresh names : forall registry,
  NoDup names ->
  (forall name, In name names -> name ∉ registry) ->
  fst (mustRegisterAll names registry) = Returned tt.
Proof.
  induction names as [|name rest IH]; intros registry Hnd Hfresh; simpl;
    [reflexivity|].
  inversion Hnd as [|? ? Hnotin Hnd']; subst.
  destruct (decide (name ∈ registry)) as [Hin|_].
  - exfalso. exact (Hfresh name (or_introl eq_refl) Hin).
  - apply IH; [exact Hnd'|].
    intros name' Hin' Hel. apply elem_of_union in Hel as [Hel|Hel].
    + apply elem_of_singleton in Hel. apply Hnotin.
      apply list_elem_of_In. congruence.
    + exact (Hfresh name' (or_intror Hin') Hel).
Qed.

Lemma New_first_call g :
  gateOpen g -> collectorsUnregistered g ->
  exists registry,
    NewSovereigntyMetrics g =
    (Returned (Some (length (heap g))),
     {| sovereigntyMetricsInstance := Some (length (heap g));
        sovereigntyMetricsOnce := {| Once_done := true |};
        heap := heap g ++ [newMetricsValue];
        defaultRegistry := registry |}).
Proof.
  intros Hopen Hfresh.
  unfold NewSovereigntyMetrics, onceDo, buildInstance. rewrite Hopen.
  assert (Hnd : NoDup collectorNames).
  { apply (bool_decide_unpack _). vm_compute. reflexivity. }
  pose proof (mustRegisterAll_fresh collectorNames (defaultRegistry g) Hnd Hfresh)
    as Hreg.
  destruct (mustRegisterAll collectorNames (defaultRegistry g)) as [[[]|] registry];
    [|discriminate Hreg].
  exists registry. reflexivity.
Qed.

(** C7. Construction is idempotent.  The first call of a process (gate
    open, collectors not yet registered) returns a freshly allocated,
    non-nil instance, and every later call returns that same instance.  In
    any state, once a call has returned, every later call returns the
    identical instance and changes nothing. *)
Theorem NewSovereigntyMetrics_first_call_wins :
  (forall g, gateOpen g -> collectorsUnregistered g ->
     exists g1,
       NewSovereigntyMetrics g = (Returned (Some (length (heap g))), g1)
       /\ heap g !! length (heap g) = None
       /\ heap g1 !! length (heap g) = Some newMetricsValue
       /\ NewSovereigntyMetrics g1 = (Returned (Some (length (heap g))), g1)
       /\ forall k,
            constructAgain k g1 = (repeat (Returned (Some (length (heap g)))) k, g1))
  /\ (forall g m g1,
        NewSovereigntyMetrics g = (Returned m, g1) ->
        NewSovereigntyMetrics g1 = (Returned m, g1)
        /\ forall k, constructAgain k g1 = (repeat (Returned m) k, g1)).
Proof.
  assert (Hany : forall g m g1,
             NewSovereigntyMetrics g = (Returned m, g1) ->
             NewSovereigntyMetrics g1 = (Returned m, g1)
             /\ forall k, constructAgain k g1 = (repeat (Returned m) k, g1)).
  { intros g m g1 Hnew.
    destruct (New_returns _ _ _ Hnew) as [Hd Hm].
    specialize (Hm m eq_refl). subst m.
    split; [now apply New_when_done | intros k; now apply constructAgain_settled]. }
  split; [|exact Hany].
  intros g Hopen Hfresh.
  destruct (New_first_call g Hopen Hfresh) as [registry Hnew].
  eexists. split; [exact Hnew|].
  split; [apply lookup_ge_None_2; reflexivity|].
  split.
  - cbn [heap]. rewrite lookup_app_r by reflexivity.
    now rewrite Nat.sub_diag.
  - exact (Hany _ _ _ Hnew).
Qed.

(** ** The relay's filter without a classifier *)

(** C2. With no classifier attached, the per-event decision is false for
    every event, and nothing is recorded. *)
Theorem sovereignEventFilter_without_classifier
  (elapsed : Z) (b : BGS) (objects : list SovereigntyMetrics)
  (event : option XRPCStreamEvent) :
  geographicFilter b = None ->
  sovereignEventFilter elapsed b objects event = (false, b, objects).
Proof. intros H. unfold sovereignEventFilter. now rewrite H. Qed.

(** * Further properties of the classifier *)

Lemma isLikelyCanadian_answer f did :
  isLikelyCanadian f did =
  (answer f did,
   match cache f !! did with
   | Some _ => f
   | None => setCached f did (answer f did)
   end).
Proof.
  unfold isLikelyCanadian, answer, matchesKeyword.
  destruct (cache f !! did); [reflexivity|].
  destruct (knownDIDs f !! did); [reflexivity|].
  apply keywordLoop_existsb.
Qed.

(** X1. The snapshot [GetCache] returns has exactly the entries of the
    cache: a subject is in it, with the same value, exactly when it is
    cached; the snapshot of a new classifier is empty. *)
Theorem GetCache_snapshot (f : CanadianGeographicFilter) (did : string) :
  GetCache f !! did = cache f !! did
  /\ GetCache f = cache f
  /\ GetCache NewCanadianGeographicFilter = ∅
  /\ GetCache (snd (isLikelyCanadian f did)) !! did = Some (fst (isLikelyCanadian f did)).
Proof.
  rewrite !GetCache_copy.
  split; [reflexivity|]. split; [reflexivity|]. split; [reflexivity|].
  apply isLikelyCanadian_caches.
Qed.

(** ** Growth of the cache *)

Lemma insert_size_le (m : gmap string bool) did value :
  size m <= size (<[did := value]> m) <= S (size m).
Proof. rewrite map_size_insert. destruct (m !! did); simpl; lia. Qed.

Lemma exec_grows f c :
  (forall did, is_Some (cache f !! did) -> is_Some (cache (exec f c) !! did))
  /\ size (cache f) <= size (cache (exec f c)) <= S (size (cache f))
  /\ ttl (exec f c) = ttl f.
Proof.
  assert (Hq : forall d,
             (forall did, is_Some (cache f !! did) ->
                          is_Some (cache (snd (isLikelyCanadian f d)) !! did))
             /\ size (cache f) <= size (cache (snd (isLikelyCanadian f d)))
                <= S (size (cache f))
             /\ ttl (snd (isLikelyCanadian f d)) = ttl f).
  { intros d. rewrite isLikelyCanadian_answer. cbn [snd].
    destruct (cache f !! d); cbn [setCached cache ttl].
    - repeat split; auto; lia.
    - split; [|split; [apply insert_size_le | reflexivity]].
      intros did H. apply lookup_insert_is_Some'. now right. }
  destruct c as [[e|]|d| |]; cbn [exec].
  - rewrite ShouldInclude_by_subject.
    destruct (subjectOf e); [apply Hq | repeat split; auto; lia].
  - repeat split; auto; simpl; lia.
  - cbn [AddCanadianDID cache ttl].
    split; [|split; [apply insert_size_le | reflexivity]].
    intros did H. apply lookup_insert_is_Some'. now right.
  - repeat split; auto; lia.
  - repeat split; auto; lia.
Qed.

(** X4. Nothing is ever evicted: across any calls every cached subject
    stays cached, the cache grows by at most one entry per call, and the
    configured time-to-live stays what it was. *)
Theorem cache_only_grows (calls : list call) (f : CanadianGeographicFilter) :
  (forall did, is_Some (cache f !! did) -> is_Some (cache (run f calls) !! did))
  /\ size (cache f) <= size (cache (run f calls)) <= size (cache f) + length calls
  /\ ttl (run f calls) = ttl f.
Proof.
  revert f. induction calls as [|c calls IH]; intros f; simpl.
  - repeat split; auto; lia.
  - destruct (exec_grows f c) as (Hd & Hs & Ht).
    destruct (IH (exec f c)) as (Hd' & Hs' & Ht').
    fold (run (exec f c) calls).
    split; [auto|]. split; [lia | congruence].
Qed.

(** ** Composition of queries and overrides *)

(** X5. Asking again changes nothing: a second inclusion check on the same
    event returns the answer of the first and leaves the classifier as the
    first left it. *)
Theorem query_is_idempotent
  (f : CanadianGeographicFilter) (event : option XRPCStreamEvent) :
  ShouldIncludeInSovereignFeed
    (snd (ShouldIncludeInSovereignFeed f event)) event
  = ShouldIncludeInSovereignFeed f event.
Proof.
  destruct event as [e|]; [|reflexivity].
  rewrite !ShouldInclude_by_subject.
  destruct (subjectOf e) as [did|]; [|reflexivity].
  rewrite (isLikelyCanadian_hit _ _ _ (isLikelyCanadian_caches f did)).
  now destruct (isLikelyCanadian f did).
Qed.

Lemma setCached_setCached_ne f d1 d2 v1 v2 :
  d1 <> d2 ->
  setCached (setCached f d1 v1) d2 v2 = setCached (setCached f d2 v2) d1 v1.
Proof.
  intros Hne. unfold setCached; cbn [cache ttl knownDIDs].
  f_equal. apply insert_insert_ne. congruence.
Qed.

(** X6. Queries about two subjects commute: asked in either order, each
    subject gets the same answer and the classifier ends in the same state. *)
Theorem queries_commute (f : CanadianGeographicFilter) (d1 d2 : string) :
  queryTwice f d1 d2 =
  (let '(r2, r1, f') := queryTwice f d2 d1 in (r1, r2, f')).
Proof.
  assert (Heq : forall a b,
             queryTwice f a b =
             (answer f a, answer (snd (isLikelyCanadian f a)) b,
              snd (isLikelyCanadian (snd (isLikelyCanadian f a)) b))).
  { intros a b. unfold queryTwice.
    destruct (isLikelyCanadian f a) as [r1 f1] eqn:E1.
    destruct (isLikelyCanadian f1 b) as [r2 f2] eqn:E2.
    cbn [snd].
    pose proof (isLikelyCanadian_answer f a) as H1. rewrite E1 in H1.
    pose proof (isLikelyCanadian_answer f1 b) as H2. rewrite E2 in H2.
    injection H1 as -> _. injection H2 as -> _. now rewrite E2. }
  rewrite !Heq. rewrite !isLikelyCanadian_answer. cbn [snd].
  assert (Hsame : forall g a v, answer (setCached g a v) a = v
                                /\ cache (setCached g a v) !! a = Some v).
  { intros g a v. unfold answer. cbn [setCached cache].
    now rewrite lookup_insert_eq. }
  assert (Hother : forall g a b v, a <> b ->
                     answer (setCached g a v) b = answer g b
                     /\ cache (setCached g a v) !! b = cache g !! b).
  { intros g a b v Hab. unfold answer. cbn [setCached cache knownDIDs].
    rewrite lookup_insert_ne by exact Hab. auto. }
  destruct (decide (d1 = d2)) as [->|Hne].
  - destruct (cache f !! d2) eqn:E.
    + rewrite E. reflexivity.
    + destruct (Hsame f d2 (answer f d2)) as [-> ->]. reflexivity.
  - destruct (Hother f d1 d2 (answer f d1) Hne) as [Ha12 Hc12].
    destruct (Hother f d2 d1 (answer f d2) (not_eq_sym Hne)) as [Ha21 Hc21].
    destruct (cache f !! d1) eqn:E1; destruct (cache f !! d2) eqn:E2;
      rewrite ?Ha12, ?Hc12, ?Ha21, ?Hc21, ?E1, ?E2; try reflexivity.
    f_equal. now apply setCached_setCached_ne.
Qed.


(** X7. An override is exact: registering one subject changes the answer
    for no other identifier, however close (a different letter case
    included). *)
Theorem override_is_exact
  (f : CanadianGeographicFilter) (did other : string) :
  other <> did ->
  fst (isLikelyCanadian (AddCanadianDID f did) other)
  = fst (isLikelyCanadian f other)
  /\ cache (AddCanadianDID f did) !! other = cache f !! other
  /\ knownDIDs (AddCanadianDID f did) !! other = knownDIDs f !! other.
Proof.
  intros Hne. rewrite !isLikelyCanadian_answer. unfold answer.
  cbn [fst AddCanadianDID cache knownDIDs].
  rewrite !lookup_insert_ne by congruence. auto.
Qed.

(** X8. Overrides compose freely: registering a subject twice is the same
    as registering it once, and two registrations give the same classifier
    in either order. *)
Theorem AddCanadianDID_idempotent_commutative
  (f : CanadianGeographicFilter) (d1 d2 : string) :
  AddCanadianDID (AddCanadianDID f d1) d1 = AddCanadianDID f d1
  /\ AddCanadianDID (AddCanadianDID f d1) d2
     = AddCanadianDID (AddCanadianDID f d2) d1.
Proof.
  unfold AddCanadianDID; cbn [cache ttl knownDIDs]. split.
  - now rewrite !insert_insert_eq.
  - destruct (decide (d1 = d2)) as [->|Hne]; [reflexivity|].
    f_equal; apply insert_insert_ne; congruence.
Qed.


(** ** Letter case and length of identifiers *)

Lemma lowerByte_upperByte c :
  strings.lowerByte (strings.upperByte c) = strings.lowerByte c.
Proof. destruct c as [[] [] [] [] [] [] [] []]; reflexivity. Qed.

Lemma upperByte_lowerByte c :
  strings.upperByte (strings.lowerByte c) = strings.upperByte c.
Proof. destruct c as [[] [] [] [] [] [] [] []]; reflexivity. Qed.

Lemma upperByte_upperByte c :
  strings.upperByte (strings.upperByte c) = strings.upperByte c.
Proof. destruct c as [[] [] [] [] [] [] [] []]; reflexivity. Qed.

Lemma upperByte_below_RuneSelf c :
  (N_of_ascii (strings.upperByte c) <? strings.RuneSelf)%N
  = (N_of_ascii c <? strings.RuneSelf)%N.
Proof. destruct c as [[] [] [] [] [] [] [] []]; reflexivity. Qed.

Lemma lowerByte_below_RuneSelf c :
  (N_of_ascii (strings.lowerByte c) <? strings.RuneSelf)%N
  = (N_of_ascii c <? strings.RuneSelf)%N.
Proof. destruct c as [[] [] [] [] [] [] [] []]; reflexivity. Qed.

Lemma isASCII_upper s :
  strings.isASCII (strings.mapBytes strings.upperByte s) = strings.isASCII s.
Proof.
  induction s as [|c s IH]; simpl; [reflexivity|].
  now rewrite upperByte_below_RuneSelf, IH.
Qed.

Lemma isASCII_lower s :
  strings.isASCII (strings.mapBytes strings.lowerByte s) = strings.isASCII s.
Proof.
  induction s as [|c s IH]; simpl; [reflexivity|].
  now rewrite lowerByte_below_RuneSelf, IH.
Qed.

Lemma mapBytes_compose g h k s :
  (forall c, g (h c) = k c) ->
  strings.mapBytes g (strings.mapBytes h s) = strings.mapBytes k s.
Proof.
  intros Hc. induction s as [|c s IH]; simpl; [reflexivity|].
  now rewrite Hc, IH.
Qed.

Lemma length_mapBytes g s :
  String.length (strings.mapBytes g s) = String.length s.
Proof. induction s as [|c s IH]; simpl; [reflexivity | now rewrite IH]. Qed.

Lemma length_append (a b : string) :
  String.length (a +:+ b) = String.length a + String.length b.
Proof. induction a as [|c a IH]; simpl; [reflexivity | now rewrite IH]. Qed.

Lemma Contains_length s substr :
  strings.Contains s substr = true -> String.length substr <= String.length s.
Proof.
  intros H. apply Contains_spec in H. destruct H as (pre & post & ->).
  rewrite !length_append. lia.
Qed.

Lemma ToLower_ToUpper_ascii did :
  strings.isASCII did = true ->
  strings.ToLower mapUnicodeToLower (strings.ToUpper mapUnicodeToUpper did)
  = strings.ToLower mapUnicodeToLower did.
Proof.
  intros Ha. unfold strings.ToLower, strings.ToUpper.
  rewrite Ha, isASCII_upper, Ha.
  apply mapBytes_compose, lowerByte_upperByte.
Qed.

(** X9. The keyword heuristic ignores ASCII letter case: an ASCII
    identifier and its upper-cased form match the keywords alike, so a new
    classifier gives both the same answer. *)
Theorem heuristic_ignores_ascii_case (did : string) :
  strings.isASCII did = true ->
  matchesKeyword (strings.ToUpper mapUnicodeToUpper did) = matchesKeyword did
  /\ fst (isLikelyCanadian NewCanadianGeographicFilter
            (strings.ToUpper mapUnicodeToUpper did))
     = fst (isLikelyCanadian NewCanadianGeographicFilter did).
Proof.
  intros Ha.
  assert (H : matchesKeyword (strings.ToUpper mapUnicodeToUpper did)
              = matchesKeyword did).
  { unfold matchesKeyword. now rewrite ToLower_ToUpper_ascii. }
  split; [exact H|].
  rewrite !isLikelyCanadian_answer. unfold answer. cbn [fst].
  cbn [NewCanadianGeographicFilter cache knownDIDs]. rewrite !lookup_empty.
  exact H.
Qed.

Lemma keywords_at_least_six :
  Forall (fun keyword => 6 <= String.length keyword) canadianKeywords.
Proof. unfold canadianKeywords. repeat constructor. Qed.

(** X10. An ASCII identifier shorter than six bytes (the empty identifier
    included) is too short for any keyword: a query that misses the cache
    and the known subjects answers false and caches false. *)
Theorem short_identifier_is_denied (f : CanadianGeographicFilter) (did : string) :
  strings.isASCII did = true ->
  String.length did < 6 ->
  cache f !! did = None ->
  knownDIDs f !! did = None ->
  isLikelyCanadian f did = (false, setCached f did false).
Proof.
  intros Ha Hlen Hc Hk.
  assert (Hm : matchesKeyword did = false).
  { unfold matchesKeyword, strings.ToLower. rewrite Ha.
    apply not_true_is_false. intros Hex.
    apply existsb_exists in Hex. destruct Hex as (keyword & Hin & Hcont).
    apply Contains_length in Hcont. rewrite length_mapBytes in Hcont.
    pose proof keywords_at_least_six as Hall.
    rewrite Forall_forall in Hall.
    specialize (Hall keyword (proj2 (list_elem_of_In _ _) Hin)). lia. }
  rewrite isLikelyCanadian_answer. unfold answer. now rewrite Hc, Hk, Hm.
Qed.


(** * Further properties of the conversion, the configuration and the metrics *)

(** X11. Conversion and classifier agree on the subject wherever the
    conversion finds one: the converted event has an empty kind exactly when
    the event has no commit, identity or account payload, and otherwise its
    kind is one of the three and its Repo is the identifier the classifier
    reads from the same event, commit before identity before account. *)
Theorem Convert_agrees_with_classifier (now : Z) (x : XRPCStreamEvent) :
  exists ev,
    ConvertXRPCToStreamEvent now (Some x) = Some ev
    /\ Time ev = now
    /\ (Kind ev = "" <->
          RepoCommit x = None /\ RepoIdentity x = None /\ RepoAccount x = None)
    /\ (Kind ev <> "" ->
          In (Kind ev) ["commit"; "identity"; "account"]
          /\ subjectOf x = Some (Repo ev))
    /\ (forall c, RepoCommit x = Some c ->
          Kind ev = "commit" /\ Repo ev = Commit_Repo c /\ Seq ev = Commit_Seq c).
Proof.
  unfold ConvertXRPCToStreamEvent, subjectOf.
  destruct (RepoCommit x) as [c|].
  { eexists. split; [reflexivity|]. cbn [Kind Repo Seq Time].
    split; [reflexivity|].
    split; [split; [discriminate | intros (H & _); discriminate H]|].
    split; [intros _; split; [simpl; auto | reflexivity]|].
    intros c' [= <-]. auto. }
  destruct (RepoIdentity x) as [i|].
  { eexists. split; [reflexivity|]. cbn [Kind Repo Seq Time].
    split; [reflexivity|].
    split; [split; [discriminate | intros (_ & H & _); discriminate H]|].
    split; [intros _; split; [simpl; auto | reflexivity]|].
    intros c' H. discriminate H. }
  destruct (RepoAccount x) as [a|].
  { eexists. split; [reflexivity|]. cbn [Kind Repo Seq Time].
    split; [reflexivity|].
    split; [split; [discriminate | intros (_ & _ & H); discriminate H]|].
    split; [intros _; split; [simpl; auto | reflexivity]|].
    intros c' H. discriminate H. }
  eexists. split; [reflexivity|]. cbn [Kind Repo Seq Time].
  split; [reflexivity|]. split; [split; auto|].
  split; [intros H; now elim H|].
  intros c' H. discriminate H.
Qed.

(** ** What [Validate] reads *)

Lemma mapBytes_empty g s : strings.mapBytes g s = "" <-> s = "".
Proof. destruct s; simpl; split; intros H; try reflexivity; discriminate H. Qed.

(** X12. [Validate] reads only the enabled flag and the country code, and
    the code only up to ASCII letter case: two configurations with ASCII
    codes that agree on the flag and on the upper-cased code validate alike,
    whatever their retention days and privacy modes. *)
Theorem Validate_reads_flag_and_folded_code (a b : SovereignConfig) :
  strings.isASCII (CountryCode a) = true ->
  strings.isASCII (CountryCode b) = true ->
  sameForValidate a b ->
  Validate a = Validate b.
Proof.
  intros Ha Hb [He Hu]. unfold Validate. rewrite He, Hu.
  destruct (Enabled b); cbn [negb]; [|reflexivity].
  revert Hu. unfold strings.ToUpper. rewrite Ha, Hb. intros Hu.
  assert (Hlen : String.length (CountryCode a) = String.length (CountryCode b)).
  { rewrite <- (length_mapBytes strings.upperByte (CountryCode a)), Hu.
    apply length_mapBytes. }
  rewrite Hlen.
  destruct (String.eqb_spec (CountryCode a) "") as [Ea|Ea];
    destruct (String.eqb_spec (CountryCode b) "") as [Eb|Eb]; try reflexivity.
  - rewrite Ea in Hlen. destruct (CountryCode b); [now elim Eb | discriminate Hlen].
  - rewrite Eb in Hlen. destruct (CountryCode a); [now elim Ea | discriminate Hlen].
Qed.

(** ** The metrics singleton across resets *)

Lemma mustRegisterAll_registers names : forall registry u registry',
  mustRegisterAll names registry = (Returned u, registry') ->
  registry ⊆ registry' /\ forall name, In name names -> name ∈ registry'.
Proof.
  induction names as [|n rest IH]; intros registry u registry'; simpl.
  - intros [= _ <-]. split; [reflexivity | contradiction].
  - destruct (decide (n ∈ registry)); [discriminate|].
    intros H. destruct (IH _ _ _ H) as [Hsub Hall]. split.
    + intros x Hx. apply Hsub, elem_of_union. now right.
    + intros name [<-|Hin]; [|now apply Hall].
      apply Hsub, elem_of_union. left. now apply elem_of_singleton.
Qed.

Lemma New_registers g m g1 :
  gateOpen g ->
  NewSovereigntyMetrics g = (Returned m, g1) ->
  (forall name, In name collectorNames -> name ∈ defaultRegistry g1)
  /\ m = Some (length (heap g))
  /\ heap g1 = (heap g ++ [newMetricsValue])%list.
Proof.
  intros Hopen. unfold NewSovereigntyMetrics, onceDo, buildInstance.
  rewrite Hopen.
  destruct (mustRegisterAll collectorNames (defaultRegistry g))
    as [[u|] registry] eqn:E; [|discriminate].
  intros [= <- <-]. cbn [defaultRegistry heap].
  split; [exact (proj2 (mustRegisterAll_registers _ _ _ _ E)) | auto].
Qed.

(** X13. The test reset does not make construction repeatable: after a
    construction that built the instance, a reset reopens the gate and
    clears the instance, but the collectors stay registered, so the next
    construction panics; the gate is then closed over a nil instance, and
    every later call returns nil. *)
Theorem construct_after_reset_panics (g g1 : Globals) (m : option ptr) :
  gateOpen g ->
  NewSovereigntyMetrics g = (Returned m, g1) ->
  let g2 := ResetSovereigntyMetricsForTesting g1 in
  let g3 := snd (NewSovereigntyMetrics g2) in
  gateOpen g2
  /\ sovereigntyMetricsInstance g2 = None
  /\ fst (NewSovereigntyMetrics g2) = Panicked
  /\ NewSovereigntyMetrics g3 = (Returned None, g3)
  /\ heap g3 = heap g1.
Proof.
  intros Hopen Hnew g2 g3.
  destruct (New_registers _ _ _ Hopen Hnew) as (Hreg & _ & _).
  assert (Hfirst : "sovereignty_events_processed_total" ∈ defaultRegistry g2).
  { apply Hreg. simpl. auto. }
  assert (Hpanic : NewSovereigntyMetrics g2 =
                   (Panicked,
                    {| sovereigntyMetricsInstance := None;
                       sovereigntyMetricsOnce := {| Once_done := true |};
                       heap := heap g1;
                       defaultRegistry := defaultRegistry g1 |})).
  { unfold NewSovereigntyMetrics, onceDo, buildInstance.
    cbn [g2 ResetSovereigntyMetricsForTesting sovereigntyMetricsOnce Once_done
         defaultRegistry collectorNames mustRegisterAll].
    destruct (decide ("sovereignty_events_processed_total" ∈ defaultRegistry g1))
      as [_|Hn]; [reflexivity | now elim Hn]. }
  subst g3. rewrite Hpanic. cbn [fst snd].
  split; [reflexivity|]. split; [reflexivity|]. split; [reflexivity|].
  split; [|reflexivity]. now apply New_when_done.
Qed.







(** ** Identifiers that embed a match *)

Lemma append_String x (a b : string) : String x a +:+ b = String x (a +:+ b).
Proof. reflexivity. Qed.

Lemma append_assoc (a b c : string) : (a +:+ b) +:+ c = a +:+ (b +:+ c).
Proof.
  induction a as [|x a IH]; [reflexivity|].
  now rewrite !append_String, IH.
Qed.

Lemma mapBytes_append g (a b : string) :
  strings.mapBytes g (a +:+ b) = strings.mapBytes g a +:+ strings.mapBytes g b.
Proof.
  induction a as [|x a IH]; [reflexivity|].
  rewrite append_String. cbn [strings.mapBytes]. now rewrite append_String, IH.
Qed.

Lemma isASCII_append (a b : string) :
  strings.isASCII (a +:+ b) = strings.isASCII a && strings.isASCII b.
Proof.
  induction a as [|x a IH]; [reflexivity|].
  rewrite append_String. cbn [strings.isASCII]. now rewrite IH, andb_assoc.
Qed.

Lemma substringOf_embedded keyword s pre post :
  substringOf keyword s -> substringOf keyword (pre +:+ s +:+ post).
Proof.
  intros (p1 & p2 & ->). exists (pre +:+ p1), (p2 +:+ post).
  now rewrite !append_assoc.
Qed.

(** X15. The heuristic is closed under embedding: when an ASCII identifier
    matches a keyword, so does every ASCII identifier that contains it,
    whatever is put before and after. *)
Theorem match_survives_embedding (pre did post : string) :
  strings.isASCII pre = true ->
  strings.isASCII did = true ->
  strings.isASCII post = true ->
  matchesKeyword did = true ->
  matchesKeyword (pre +:+ did +:+ post) = true.
Proof.
  intros Hpre Hdid Hpost. unfold matchesKeyword, strings.ToLower.
  rewrite !isASCII_append, Hpre, Hdid, Hpost. cbn [andb].
  rewrite !mapBytes_append, !existsb_exists.
  intros (keyword & Hin & Hc). exists keyword. split; [exact Hin|].
  apply Contains_spec. apply Contains_spec in Hc.
  now apply substringOf_embedded.
Qed.


(** * Goroutines on one classifier *)

Lemma keywordScan_existsb didLower keywords :
  keywordScan didLower keywords = existsb (strings.Contains didLower) keywords.
Proof.
  induction keywords as [|keyword rest IH]; simpl; [reflexivity|].
  destruct (strings.Contains didLower keyword); [reflexivity | exact IH].
Qed.

Lemma stepQuery_heuristic f did :
  stepQuery f did BeforeHeuristic = (BeforeCommit (matchesKeyword did), f).
Proof. unfold stepQuery, matchesKeyword. now rewrite keywordScan_existsb. Qed.

(** The four stretches of one call, run in a row, are the call. *)
Lemma stretches_compose f did :
  let '(p1, f1) := stepQuery f did BeforeCacheLookup in
  let '(p2, f2) := stepQuery f1 did p1 in
  let '(p3, f3) := stepQuery f2 did p2 in
  let '(p4, f4) := stepQuery f3 did p3 in
  (p4, f4) = (Finished (fst (isLikelyCanadian f did)), snd (isLikelyCanadian f did)).
Proof.
  rewrite isLikelyCanadian_answer. unfold answer. cbn [fst snd].
  cbn [stepQuery].
  destruct (cache f !! did) as [cached|]; [reflexivity|].
  cbn [stepQuery].
  destruct (knownDIDs f !! did) as [known|]; [reflexivity|].
  rewrite stepQuery_heuristic. reflexivity.
Qed.

Lemma lookup_last (l : list goroutine) g : (l ++ [g])%list !! length l = Some g.
Proof. now apply list_lookup_middle. Qed.

Lemma insert_last (l : list goroutine) g g' :
  <[length l := g']> (l ++ [g])%list = (l ++ [g'])%list.
Proof.
  replace (length l) with (length l + 0) at 1 by lia.
  now rewrite insert_app_r.
Qed.

Lemma advance_last f l did p :
  act {| shared := f; goroutines := l ++ [Querying did p] |} (Advance (length l))
  = {| shared := snd (stepQuery f did p);
       goroutines := l ++ [Querying did (fst (stepQuery f did p))] |}.
Proof.
  cbn [act shared goroutines]. rewrite lookup_last.
  destruct (stepQuery f did p) as [p' f']. cbn [fst snd].
  now rewrite insert_last.
Qed.

Lemma advance_refused f l :
  act {| shared := f; goroutines := l ++ [Refused] |} (Advance (length l))
  = {| shared := f; goroutines := l ++ [Refused] |}.
Proof. cbn [act shared goroutines]. now rewrite lookup_last. Qed.

(** A call that runs alone does what the call does as a whole: the model
    of goroutines contains every run of whole calls. *)
Lemma alone_is_whole_call (s : system) (event : option XRPCStreamEvent) :
  exists g,
    schedule s (alone s event) =
    {| shared := snd (ShouldIncludeInSovereignFeed (shared s) event);
       goroutines := goroutines s ++ [g] |}
    /\ resultOf g = Some (fst (ShouldIncludeInSovereignFeed (shared s) event)).
Proof.
  destruct s as [f l]. unfold alone, schedule. cbn [shared goroutines fold_left].
  change (act {| shared := f; goroutines := l |} (Enter event))
    with {| shared := f; goroutines := l ++ [enter event] |}.
  destruct event as [e|]; cbn [enter].
  2:{ exists Refused. rewrite !advance_refused. auto. }
  rewrite ShouldInclude_by_subject.
  destruct (subjectOf e) as [did|].
  2:{ exists Refused. rewrite !advance_refused. auto. }
  pose proof (stretches_compose f did) as H.
  rewrite !advance_last.
  destruct (stepQuery f did BeforeCacheLookup) as [p1 f1]. cbn [fst snd].
  destruct (stepQuery f1 did p1) as [p2 f2]. cbn [fst snd].
  destruct (stepQuery f2 did p2) as [p3 f3]. cbn [fst snd].
  destruct (stepQuery f3 did p3) as [p4 f4]. cbn [fst snd].
  injection H as -> ->.
  eexists. split; reflexivity.
Qed.


(** ** What every schedule preserves *)

Lemma justified_grows f f' did value :
  knownGrows f f' -> justified f did value -> justified f' did value.
Proof. intros Hg [H|[H1 H2]]; [now left | right; auto]. Qed.

Lemma justifiedAt_grows f f' g :
  knownGrows f f' -> justifiedAt f g -> justifiedAt f' g.
Proof.
  intros Hg. destruct g as [did [| | |value|result]|]; cbn [justifiedAt]; auto;
    now apply justified_grows.
Qed.

Lemma sound_new : sound newSystem.
Proof.
  repeat split.
  - cbn in H. rewrite lookup_empty in H. discriminate H.
  - cbn in H. rewrite lookup_empty in H. discriminate H.
  - intros did cached H. cbn in H. rewrite lookup_empty in H. discriminate H.
  - intros i g H. cbn in H. rewrite lookup_nil in H. discriminate H.
Qed.

Lemma sound_enter s event : sound s -> sound (act s (Enter event)).
Proof.
  intros (H1 & H2 & H3). split; [exact H1|]. split; [exact H2|].
  intros i g. cbn [act shared goroutines]. intros H.
  apply lookup_app_Some in H as [H|[_ H]]; [now apply (H3 i)|].
  destruct (i - length (goroutines s)) as [|n]; [|destruct n; discriminate H].
  injection H as <-. unfold enter.
  destruct event as [e|]; [destruct (subjectOf e)|]; exact I.
Qed.

Lemma sound_override s did : sound s -> sound (act s (Override did)).
Proof.
  intros (H1 & H2 & H3).
  assert (Hg : knownGrows (shared s) (AddCanadianDID (shared s) did)).
  { intros d H. cbn [AddCanadianDID knownDIDs].
    destruct (decide (did = d)) as [->|Hne];
      [apply lookup_insert_eq | now rewrite lookup_insert_ne]. }
  cbn [act]. split; [|split]; cbn [shared goroutines].
  - intros d known. cbn [AddCanadianDID knownDIDs cache].
    destruct (decide (did = d)) as [->|Hne].
    + rewrite !lookup_insert_eq. intros [= <-]. eauto.
    + rewrite !lookup_insert_ne by exact Hne. apply H1.
  - intros d cached. cbn [AddCanadianDID cache].
    destruct (decide (did = d)) as [->|Hne].
    + rewrite lookup_insert_eq. intros [= <-]. right. split; [reflexivity|].
      cbn [AddCanadianDID knownDIDs]. apply lookup_insert_eq.
    + rewrite lookup_insert_ne by exact Hne. intros H.
      apply (justified_grows (shared s)); [exact Hg | now apply H2].
  - intros i g H. apply (justifiedAt_grows (shared s)); [exact Hg | now apply (H3 i)].
Qed.

Lemma sound_replace f (l : list goroutine) (i : nat) g' :
  (forall j g, l !! j = Some g -> justifiedAt f g) ->
  justifiedAt f g' ->
  forall j g, <[i := g']> l !! j = Some g -> justifiedAt f g.
Proof.
  intros Hall Hnew j g H.
  apply list_lookup_insert_Some in H as [(_ & <- & _)|[_ H]];
    [exact Hnew | now apply (Hall j)].
Qed.

Lemma sound_advance s i : sound s -> sound (act s (Advance i)).
Proof.
  intros Hs. pose proof Hs as (H1 & H2 & H3). cbn [act].
  destruct (goroutines s !! i) as [[did p|]|] eqn:Ei; [|exact Hs|exact Hs].
  pose proof (H3 i _ Ei) as Hi.
  destruct p as [| | |value|result].
  - cbn [stepQuery].
    destruct (cache (shared s) !! did) as [cached|] eqn:Ec;
      (split; [exact H1|]); (split; [exact H2|]); cbn [shared goroutines];
      (apply sound_replace; [exact H3 | cbn [justifiedAt]]).
    + now apply H2.
    + exact I.
  - cbn [stepQuery].
    destruct (knownDIDs (shared s) !! did) as [known|] eqn:Ek;
      (split; [exact H1|]); (split; [exact H2|]); cbn [shared goroutines];
      (apply sound_replace; [exact H3 | cbn [justifiedAt]]).
    + destruct (H1 did known Ek) as [-> _]. right. auto.
    + exact I.
  - rewrite stepQuery_heuristic.
    split; [exact H1|]. split; [exact H2|]. cbn [shared goroutines].
    apply sound_replace; [exact H3 | cbn [justifiedAt]]. now left.
  - cbn [stepQuery justifiedAt] in *.
    assert (Hg : knownGrows (shared s) (setCached (shared s) did value))
      by (intros d H; exact H).
    split; [|split]; cbn [shared goroutines].
    + intros d known H. cbn [setCached knownDIDs cache] in *.
      destruct (H1 d known H) as [-> Hc]. split; [reflexivity|].
      apply lookup_insert_is_Some'. now right.
    + intros d cached. cbn [setCached cache].
      destruct (decide (did = d)) as [<-|Hne].
      * rewrite lookup_insert_eq. intros [= <-].
        now apply (justified_grows (shared s)).
      * rewrite lookup_insert_ne by exact Hne. intros H.
        apply (justified_grows (shared s)); [exact Hg | now apply H2].
    + apply sound_replace.
      * intros j g H. apply (justifiedAt_grows (shared s)); [exact Hg | now apply (H3 j)].
      * cbn [justifiedAt]. now apply (justified_grows (shared s)).
  - cbn [stepQuery].
    split; [exact H1|]. split; [exact H2|]. cbn [shared goroutines].
    apply sound_replace; [exact H3 | exact Hi].
Qed.

Lemma sound_act s a : sound s -> sound (act s a).
Proof.
  destruct a as [event|i|did];
    [apply sound_enter | apply sound_advance | apply sound_override].
Qed.

Lemma sound_schedule actions : forall s, sound s -> sound (schedule s actions).
Proof.
  induction actions as [|a actions IH]; intros s Hs; [exact Hs|].
  cbn [schedule fold_left]. apply IH. now apply sound_act.
Qed.

Lemma known_after_act s a did :
  is_Some (knownDIDs (shared (act s a)) !! did) ->
  is_Some (knownDIDs (shared s) !! did) \/ a = Override did.
Proof.
  destruct a as [event|i|d]; cbn [act].
  - auto.
  - destruct (goroutines s !! i) as [[d p|]|]; auto.
    destruct p; cbn [stepQuery]; auto.
    + destruct (cache (shared s) !! d); auto.
    + destruct (knownDIDs (shared s) !! d); auto.
  - cbn [shared AddCanadianDID knownDIDs].
    destruct (decide (d = did)) as [->|Hne]; [auto|].
    rewrite lookup_insert_ne by exact Hne. auto.
Qed.

Lemma known_after_schedule actions : forall s did,
  is_Some (knownDIDs (shared (schedule s actions)) !! did) ->
  is_Some (knownDIDs (shared s) !! did) \/ In (Override did) actions.
Proof.
  induction actions as [|a actions IH]; intros s did H; [now left|].
  cbn [schedule fold_left] in H. apply IH in H as [H|H].
  - apply known_after_act in H as [H|H]; [now left | right; left; exact H].
  - right. now right.
Qed.

(** X2. Under every schedule of goroutines on a new classifier, each known
    subject is known as true and has a cache entry, and every cache entry is
    the keyword heuristic's answer for its subject or is true for a known
    subject; in particular the cache entry of a subject that is not known is
    the heuristic's answer. *)
Theorem scheduled_states_are_sound (actions : list action) (did : string) :
  let f := shared (schedule newSystem actions) in
  (forall known, knownDIDs f !! did = Some known ->
     known = true /\ is_Some (cache f !! did))
  /\ (forall cached, cache f !! did = Some cached ->
        cached = matchesKeyword did
        \/ (cached = true /\ knownDIDs f !! did = Some true))
  /\ (forall cached, cache f !! did = Some cached ->
        knownDIDs f !! did = None -> cached = matchesKeyword did).
Proof.
  intros f.
  destruct (sound_schedule actions newSystem sound_new) as (H1 & H2 & _).
  fold f in H1, H2.
  split; [apply H1|]. split; [apply H2|].
  intros cached Hc Hk. destruct (H2 did cached Hc) as [H|[_ H]]; [exact H|].
  rewrite Hk in H. discriminate H.
Qed.

(** X3. Under every schedule of goroutines on a new classifier, what a
    finished query returns is the keyword heuristic's answer for its
    subject, or is true for a subject that an override in the schedule
    registered: no subject is included that neither matches a keyword nor
    was registered, and no subject that matches a keyword is excluded. *)
Theorem scheduled_answers_are_justified
  (actions : list action) (i : nat) (did : string) (result : bool) :
  goroutines (schedule newSystem actions) !! i = Some (Querying did (Finished result)) ->
  (result = matchesKeyword did
   \/ (result = true /\ In (Override did) actions))
  /\ (result = true -> matchesKeyword did = true \/ In (Override did) actions)
  /\ (result = false -> matchesKeyword did = false).
Proof.
  intros Hi.
  destruct (sound_schedule actions newSystem sound_new) as (_ & _ & H3).
  pose proof (H3 i _ Hi) as Hj. cbn [justifiedAt] in Hj.
  assert (Hmain : result = matchesKeyword did
                  \/ (result = true /\ In (Override did) actions)).
  { destruct Hj as [H|[H Hk]]; [now left | right].
    split; [exact H|].
    destruct (known_after_schedule actions newSystem did) as [[? Hn]|Hin];
      [rewrite Hk; eauto | | exact Hin].
    cbn in Hn. rewrite lookup_empty in Hn. discriminate Hn. }
  split; [exact Hmain|]. split.
  - intros ->. destruct Hmain as [H|[_ H]]; [left; now symmetry | now right].
  - intros ->. destruct Hmain as [H|[H _]]; [now symmetry | discriminate H].
Qed.


(** ** An override and a query in flight *)

Lemma act_advance s i did p :
  goroutines s !! i = Some (Querying did p) ->
  act s (Advance i) =
  {| shared := snd (stepQuery (shared s) did p);
     goroutines := <[i := Querying did (fst (stepQuery (shared s) did p))]>
                     (goroutines s) |}.
Proof.
  intros H. cbn [act]. rewrite H. now destruct (stepQuery (shared s) did p).
Qed.

(** Whatever the classifier holds, a subject that is neither cached nor
    known and matches no keyword loses an override written while a query
    for it is between its look-ups and its [setCached]: the later query
    returns false, and the classifier is left with the subject known as
    true and cached as false. *)
Lemma override_lost f did :
  cache f !! did = None ->
  knownDIDs f !! did = None ->
  matchesKeyword did = false ->
  schedule {| shared := f; goroutines := [] |} (losingSchedule did)
  = {| shared := setCached (AddCanadianDID f did) did false;
       goroutines := [Querying did (Finished false);
                      Querying did (Finished false)] |}.
Proof.
  intros Hc Hk Hm.
  assert (Hhit : cache (setCached (AddCanadianDID f did) did false) !! did
                 = Some false) by apply lookup_insert_eq.
  unfold losingSchedule, schedule.
  cbn [fold_left act enter commitOf subjectOf RepoCommit Commit_Repo
       shared goroutines lookup list_lookup insert list_insert app
       stepQuery fst snd].
  rewrite Hc.
  cbn [act shared goroutines lookup list_lookup insert list_insert app
       stepQuery fst snd].
  rewrite Hk.
  cbn [act shared goroutines lookup list_lookup insert list_insert app
       fst snd].
  rewrite stepQuery_heuristic, Hm.
  cbn [act shared goroutines lookup list_lookup insert list_insert app
       stepQuery fst snd].
  rewrite Hhit. reflexivity.
Qed.


(** The same subject, with a third goroutine asking between the override
    and the late commit: it is answered true from the cache, and the one
    after the late commit is answered false. *)
Lemma cached_value_flipped f did :
  cache f !! did = None ->
  knownDIDs f !! did = None ->
  matchesKeyword did = false ->
  schedule {| shared := f; goroutines := [] |} (flippingSchedule did)
  = {| shared := setCached (AddCanadianDID f did) did false;
       goroutines := [Querying did (Finished false);
                      Querying did (Finished true);
                      Querying did (Finished false)] |}.
Proof.
  intros Hc Hk Hm.
  assert (Htrue : cache (AddCanadianDID f did) !! did = Some true)
    by apply lookup_insert_eq.
  assert (Hfalse : cache (setCached (AddCanadianDID f did) did false) !! did
                   = Some false) by apply lookup_insert_eq.
  unfold flippingSchedule, schedule.
  cbn [fold_left act enter commitOf subjectOf RepoCommit Commit_Repo
       shared goroutines lookup list_lookup insert list_insert app
       stepQuery fst snd].
  rewrite Hc.
  cbn [act shared goroutines lookup list_lookup insert list_insert app
       stepQuery fst snd].
  rewrite Hk.
  cbn [act shared goroutines lookup list_lookup insert list_insert app
       fst snd].
  rewrite stepQuery_heuristic, Hm.
  cbn [act shared goroutines lookup list_lookup insert list_insert app
       stepQuery fst snd].
  rewrite Htrue.
  cbn [act shared goroutines lookup list_lookup insert list_insert app
       stepQuery fst snd].
  rewrite Hfalse. reflexivity.
Qed.

Lemma american_user_misses :
  cache NewCanadianGeographicFilter !! "did:plc:american-user" = None
  /\ knownDIDs NewCanadianGeographicFilter !! "did:plc:american-user" = None
  /\ matchesKeyword "did:plc:american-user" = false.
Proof. repeat split. Qed.

(** C4 (the code breaks it). A query for "did:plc:american-user" passes
    both look-ups and the heuristic on a new classifier; [AddCanadianDID]
    then registers the subject; the query then runs its [setCached].  The
    query that enters afterwards returns false, and the classifier is left
    with the subject known as true but cached as false.  The same three
    calls run one after another answer the last query true. *)
Theorem override_lost_to_stale_query :
  let did := "did:plc:american-user" in
  let s := schedule newSystem (losingSchedule did) in
  let event := Some (commitOf did) in
  let inTurn :=
    schedule (act (schedule newSystem (alone newSystem event)) (Override did))
      [Enter event; Advance 1; Advance 1; Advance 1; Advance 1] in
  goroutines s !! 1 = Some (Querying did (Finished false))
  /\ knownDIDs (shared s) !! did = Some true
  /\ cache (shared s) !! did = Some false
  /\ goroutines inTurn !! 1 = Some (Querying did (Finished true)).
Proof.
  intros did s event inTurn.
  destruct american_user_misses as (Hc & Hk & Hm).
  subst s. unfold newSystem.
  rewrite (override_lost NewCanadianGeographicFilter did Hc Hk Hm).
  cbn [shared goroutines].
  split; [reflexivity|]. split; [reflexivity|]. split; [reflexivity|].
  reflexivity.
Qed.

(** C6 (the code breaks it). With the override written while a query for
    "did:plc:american-user" is between its look-ups and its [setCached], the
    subject is cached as true; the actions that follow hold no override
    write; yet of two later queries for the subject the first returns the
    cached true and the second, after the late [setCached], returns false. *)
Theorem cached_value_flipped_by_stale_query :
  let did := "did:plc:american-user" in
  let event := Some (commitOf did) in
  let before :=
    [Enter event; Advance 0; Advance 0; Advance 0; Override did] in
  let after := [Enter event; Advance 1; Advance 0; Enter event; Advance 2] in
  let s := schedule newSystem (before ++ after) in
  flippingSchedule did = (before ++ after)%list
  /\ cache (shared (schedule newSystem before)) !! did = Some true
  /\ (forall d, ~ In (Override d) after)
  /\ goroutines s !! 1 = Some (Querying did (Finished true))
  /\ goroutines s !! 2 = Some (Querying did (Finished false))
  /\ cache (shared s) !! did = Some false.
Proof.
  intros did event before after s.
  destruct american_user_misses as (Hc & Hk & Hm).
  assert (Hs : s = schedule newSystem (flippingSchedule did)) by reflexivity.
  rewrite Hs. unfold newSystem at 2 3 4.
  rewrite (cached_value_flipped NewCanadianGeographicFilter did Hc Hk Hm).
  cbn [shared goroutines].
  split; [reflexivity|]. split; [reflexivity|].
  split; [|split; [reflexivity|split; reflexivity]].
  intros d Hin. cbn [In after] in Hin.
  repeat (destruct Hin as [Hin|Hin]; [discriminate Hin|]). exact Hin.
Qed.

(** ** When the override does hold *)

Lemma inForce_enter did from s event :
  inForce did from s -> inForce did from (act s (Enter event)).
Proof.
  intros (Hc & Hk & Hg). split; [exact Hc|]. split; [exact Hk|].
  intros i g. cbn [act shared goroutines]. intros H.
  apply lookup_app_Some in H as [H|[_ H]]; [now apply (Hg i)|].
  destruct (i - length (goroutines s)) as [|n]; [|destruct n; discriminate H].
  injection H as <-. unfold enter, stale.
  destruct event as [e|]; [destruct (subjectOf e)|];
    (split; [intros [H|H]; discriminate H | intros _ H; discriminate H]).
Qed.

Lemma inForce_override did from s d :
  inForce did from s -> inForce did from (act s (Override d)).
Proof.
  intros (Hc & Hk & Hg). cbn [act]. split; [|split]; cbn [shared goroutines].
  - cbn [AddCanadianDID cache]. destruct (decide (d = did)) as [->|Hne];
      [apply lookup_insert_eq | now rewrite lookup_insert_ne].
  - cbn [AddCanadianDID knownDIDs]. destruct (decide (d = did)) as [->|Hne];
      [apply lookup_insert_eq | now rewrite lookup_insert_ne].
  - exact Hg.
Qed.

Lemma inForce_replace did from (l : list goroutine) (i : nat) g g' :
  l !! i = Some g ->
  (forall j h, l !! j = Some h ->
     ~ stale did h /\ (from <= j -> h <> Querying did (Finished false))) ->
  ~ stale did g' ->
  (g <> Querying did (Finished false) -> g' <> Querying did (Finished false)) ->
  forall j h, <[i := g']> l !! j = Some h ->
    ~ stale did h /\ (from <= j -> h <> Querying did (Finished false)).
Proof.
  intros Hi Hall Hns Hnf j h H.
  apply list_lookup_insert_Some in H as [(<- & <- & _)|[_ H]];
    [|now apply (Hall j)].
  split; [exact Hns|]. intros Hfrom. apply Hnf. now apply (Hall i).
Qed.

Lemma inForce_advance did from s i :
  inForce did from s -> inForce did from (act s (Advance i)).
Proof.
  intros Hs. pose proof Hs as (Hc & Hk & Hg). cbn [act].
  destruct (goroutines s !! i) as [[d p|]|] eqn:Ei; [|exact Hs|exact Hs].
  destruct (Hg i _ Ei) as [Hns _].
  destruct (decide (d = did)) as [->|Hne].
  - destruct p as [| | |value|result].
    + cbn [stepQuery]. rewrite Hc.
      split; [exact Hc|]. split; [exact Hk|]. cbn [shared goroutines].
      apply (inForce_replace did from _ _ _ _ Ei Hg).
      * intros [H|H]; discriminate H.
      * intros _ H. discriminate H.
    + cbn [stepQuery]. rewrite Hk.
      split; [exact Hc|]. split; [exact Hk|]. cbn [shared goroutines].
      apply (inForce_replace did from _ _ _ _ Ei Hg).
      * intros [H|H]; discriminate H.
      * intros _ H. discriminate H.
    + exfalso. apply Hns. now left.
    + destruct value; [|exfalso; apply Hns; now right].
      cbn [stepQuery]. split; [|split]; cbn [shared goroutines setCached cache knownDIDs].
      * apply lookup_insert_eq.
      * exact Hk.
      * apply (inForce_replace did from _ _ _ _ Ei Hg).
        -- intros [H|H]; discriminate H.
        -- intros _ H. discriminate H.
    + cbn [stepQuery].
      split; [exact Hc|]. split; [exact Hk|]. cbn [shared goroutines].
      apply (inForce_replace did from _ _ _ _ Ei Hg); [exact Hns | auto].
  - assert (Hstep : cache (snd (stepQuery (shared s) d p)) !! did = Some true
                    /\ knownDIDs (snd (stepQuery (shared s) d p)) !! did = Some true).
    { destruct p; cbn [stepQuery].
      - destruct (cache (shared s) !! d); auto.
      - destruct (knownDIDs (shared s) !! d); auto.
      - auto.
      - cbn [snd setCached cache knownDIDs].
        rewrite lookup_insert_ne by exact Hne. auto.
      - auto. }
    destruct (stepQuery (shared s) d p) as [p' f']. cbn [snd] in Hstep.
    destruct Hstep as [Hc' Hk'].
    split; [exact Hc'|]. split; [exact Hk'|]. cbn [shared goroutines].
    apply (inForce_replace did from _ _ _ _ Ei Hg).
    + intros [H|H]; injection H as H _; now apply Hne.
    + intros _ H. injection H as H _. now apply Hne.
Qed.

Lemma inForce_schedule did from actions : forall s,
  inForce did from s -> inForce did from (schedule s actions).
Proof.
  induction actions as [|a actions IH]; intros s Hs; [exact Hs|].
  cbn [schedule fold_left]. apply IH.
  destruct a as [event|i|d];
    [now apply inForce_enter | now apply inForce_advance | now apply inForce_override].
Qed.

(** Under every schedule the override does hold when it is written while
    no query for the subject is between its known-subjects look-up and its
    [setCached]: the subject then stays cached as true, and every query that
    enters afterwards and finishes returns true. *)
Lemma override_holds_without_stale_query
  (s : system) (did : string) (actions : list action) :
  (forall i g, goroutines s !! i = Some g -> ~ stale did g) ->
  let s' := schedule (act s (Override did)) actions in
  cache (shared s') !! did = Some true
  /\ forall i result,
       length (goroutines s) <= i ->
       goroutines s' !! i = Some (Querying did (Finished result)) ->
       result = true.
Proof.
  intros Hns s'.
  assert (H0 : inForce did (length (goroutines s)) (act s (Override did))).
  { cbn [act]. split; [|split]; cbn [shared goroutines AddCanadianDID cache knownDIDs].
    - apply lookup_insert_eq.
    - apply lookup_insert_eq.
    - intros i g Hi. split; [now apply (Hns i)|].
      intros Hle. apply lookup_lt_Some in Hi. lia. }
  destruct (inForce_schedule did _ actions _ H0) as (Hc & _ & Hg).
  split; [exact Hc|].
  intros i result Hle Hi. destruct (Hg i _ Hi) as [_ Hnf].
  destruct result; [reflexivity|]. now elim (Hnf Hle).
Qed.

End Relay.

(** * Concrete runs *)

Lemma ShouldInclude_fails_closed_witness :
  carriesNoSubject (Some emptyEvent)
  /\ ShouldIncludeInSovereignFeed noCaseTables NewCanadianGeographicFilter
       (Some emptyEvent) = (false, NewCanadianGeographicFilter).
Proof.
  assert (H : carriesNoSubject (Some emptyEvent)) by (simpl; auto).
  split; [exact H|].
  exact (ShouldInclude_fails_closed noCaseTables NewCanadianGeographicFilter
           (Some emptyEvent) H).
Defined.

Lemma sovereignEventFilter_without_classifier_witness :
  geographicFilter testBGS = None
  /\ sovereignEventFilter noCaseTables 0 testBGS []
       (Some (commitOf "did:plc:any-user")) = (false, testBGS, []).
Proof.
  split; [reflexivity|].
  apply (sovereignEventFilter_without_classifier noCaseTables 0 testBGS []
           (Some (commitOf "did:plc:any-user"))).
  reflexivity.
Defined.

Lemma isLikelyCanadian_miss_is_keyword_match_witness :
  cache NewCanadianGeographicFilter !! "did:plc:Toronto-user-123" = None
  /\ knownDIDs NewCanadianGeographicFilter !! "did:plc:Toronto-user-123" = None
  /\ fst (isLikelyCanadian noCaseTables NewCanadianGeographicFilter
            "did:plc:Toronto-user-123") = true
  /\ cache (snd (isLikelyCanadian noCaseTables NewCanadianGeographicFilter
                   "did:plc:Toronto-user-123"))
       !! "did:plc:Toronto-user-123" = Some true.
Proof.
  split; [reflexivity|]. split; [reflexivity|].
  destruct (isLikelyCanadian_miss_is_keyword_match noCaseTables
              NewCanadianGeographicFilter "did:plc:Toronto-user-123"
              eq_refl eq_refl) as (Htrue & _ & _ & Hcached & _).
  assert (Hr : fst (isLikelyCanadian noCaseTables NewCanadianGeographicFilter
                      "did:plc:Toronto-user-123") = true).
  { apply Htrue. exists "toronto". split; [simpl; auto 10|].
    exists "did:plc:", "-user-123". reflexivity. }
  split; [exact Hr|]. rewrite Hcached, Hr. reflexivity.
Defined.

Lemma override_wins_witness :
  cache (cachedFalse noCaseTables) !! "did:plc:american-user" = Some false
  /\ subjectOf (commitOf "did:plc:american-user") = Some "did:plc:american-user"
  /\ fst (ShouldIncludeInSovereignFeed noCaseTables
            (run noCaseTables (AddCanadianDID (cachedFalse noCaseTables) "did:plc:american-user")
               [CallShouldInclude (Some (commitOf "did:plc:paris-user")); CallGetCache])
            (Some (commitOf "did:plc:american-user"))) = true.
Proof.
  split; [reflexivity|]. split; [reflexivity|].
  destruct (override_wins noCaseTables (cachedFalse noCaseTables) "did:plc:american-user"
              [CallShouldInclude (Some (commitOf "did:plc:paris-user")); CallGetCache]
              (commitOf "did:plc:american-user") eq_refl) as (H & _).
  rewrite H. reflexivity.
Defined.

Lemma cached_classification_is_stable_witness :
  cache (cachedTrue noCaseTables) !! "did:plc:toronto-cached" = Some true
  /\ noOverrideOf "did:plc:toronto-cached" laterCalls
  /\ fst (ShouldIncludeInSovereignFeed noCaseTables
            (run noCaseTables (cachedTrue noCaseTables) laterCalls)
            (Some (commitOf "did:plc:toronto-cached"))) = true.
Proof.
  assert (Hc : cache (cachedTrue noCaseTables) !! "did:plc:toronto-cached" = Some true)
    by reflexivity.
  assert (Hno : noOverrideOf "did:plc:toronto-cached" laterCalls)
    by (unfold noOverrideOf, laterCalls; repeat constructor; discriminate).
  split; [exact Hc|]. split; [exact Hno|].
  destruct (cached_classification_is_stable noCaseTables (cachedTrue noCaseTables)
              "did:plc:toronto-cached" true laterCalls
              (commitOf "did:plc:toronto-cached") Hc Hno eq_refl) as (H & _).
  rewrite H. reflexivity.
Defined.

Lemma Convert_drops_sync_subject_witness :
  RepoCommit (syncOf "did:plc:toronto-user") = None
  /\ RepoIdentity (syncOf "did:plc:toronto-user") = None
  /\ RepoAccount (syncOf "did:plc:toronto-user") = None
  /\ (exists ev, ConvertXRPCToStreamEvent 1000 (Some (syncOf "did:plc:toronto-user"))
                 = Some ev /\ Repo ev = "" /\ Kind ev = "" /\ Seq ev = 0%Z)
  /\ ShouldIncludeInSovereignFeed noCaseTables NewCanadianGeographicFilter
       (Some (syncOf "did:plc:toronto-user"))
     = isLikelyCanadian noCaseTables NewCanadianGeographicFilter "did:plc:toronto-user".
Proof.
  split; [reflexivity|]. split; [reflexivity|]. split; [reflexivity|].
  destruct (Convert_drops_sync_subject noCaseTables 1000
              (syncOf "did:plc:toronto-user") eq_refl eq_refl eq_refl)
    as (_ & Hconv & Hsync).
  split; [exact Hconv|].
  exact (proj2 (Hsync NewCanadianGeographicFilter
                  {| Sync_Repo := "did:plc:toronto-user"; Sync_Seq := 7 |} eq_refl)).
Defined.

Lemma NewSovereigntyMetrics_first_call_wins_witness :
  gateOpen processStart
  /\ collectorsUnregistered processStart
  /\ exists g1,
       NewSovereigntyMetrics processStart = (Returned (Some 0), g1)
       /\ NewSovereigntyMetrics g1 = (Returned (Some 0), g1).
Proof.
  assert (Hopen : gateOpen processStart) by reflexivity.
  assert (Hfresh : collectorsUnregistered processStart).
  { intros name _. simpl. apply not_elem_of_empty. }
  split; [exact Hopen|]. split; [exact Hfresh|].
  destruct (proj1 NewSovereigntyMetrics_first_call_wins processStart Hopen Hfresh)
    as (g1 & Hfirst & _ & _ & Hsecond & _).
  exists g1. split; [exact Hfirst | exact Hsecond].
Defined.

(** ** The tables of the test suites, run on the model *)

Example keyword_table :
  map (classify noCaseTables)
    ["did:plc:vancouver-user"; "did:plc:montreal-test"; "did:plc:calgary-person";
     "did:plc:ottawa-gov"; "did:plc:quebec-user"; "did:plc:halifax-person";
     "did:plc:edmonton-user"; "did:plc:winnipeg-test"; "did:plc:newyork-user";
     "did:plc:london-user"; "did:plc:paris-user"; "did:plc:tokyo-user";
     "did:plc:sydney-user"; "did:plc:unknown789"; "did:plc:CANADA"]
  = [true; true; true; true; true; true; true; true; false;
     false; false; false; false; false; true].
Proof. reflexivity. Qed.

Example validate_table :
  map (validates noCaseTables true) ["CA"; "US"; "XX"; ""; "CAN"; "ca"; "Ca"]
  = [true; true; false; false; false; true; true]
  /\ map (validates noCaseTables false) [""; "XX"; "CAN"] = [true; true; true].
Proof. split; reflexivity. Qed.

(** After a test reset the gate is open again, but the collectors are still
    registered: the next construction panics. *)
Example construct_reset_construct :
  fst (NewSovereigntyMetrics
         (ResetSovereigntyMetricsForTesting (snd (NewSovereigntyMetrics processStart))))
  = Panicked.
Proof. vm_compute. reflexivity. Qed.

(** ** The endpoint list under a non-Canadian jurisdiction *)

(** C8, as stated, fails: with sovereignty enabled for "US" the list is the
    standard path alone, so "a sovereign path is included exactly when
    enabled" does not hold for every configuration. *)
Lemma GetConfiguredEndpoints_enabled_without_sovereign_path :
  GetConfiguredEndpoints enabledUS = [standardEndpoint]
  /\ ~ (forall config,
          In standardEndpoint (GetConfiguredEndpoints config)
          /\ (sovereignPathIncluded config <-> SovereigntyEnabled config = true)).
Proof.
  split; [reflexivity|].
  intros Hclaim.
  destruct (Hclaim enabledUS) as [_ [_ Hincl]].
  destruct (Hincl eq_refl) as [p [[Hp|[]] Hne]].
  exact (Hne (eq_sym Hp)).
Qed.

(** ** Concrete runs of the further properties *)

Lemma override_is_exact_witness :
  "did:plc:bob" <> "did:plc:Bob"
  /\ fst (isLikelyCanadian noCaseTables
            (AddCanadianDID NewCanadianGeographicFilter "did:plc:Bob") "did:plc:bob")
     = false
  /\ fst (isLikelyCanadian noCaseTables
            (AddCanadianDID NewCanadianGeographicFilter "did:plc:Bob") "did:plc:Bob")
     = true.
Proof.
  assert (Hne : "did:plc:bob" <> "did:plc:Bob") by discriminate.
  split; [exact Hne|].
  destruct (override_is_exact noCaseTables NewCanadianGeographicFilter
              "did:plc:Bob" "did:plc:bob" Hne) as (H & _).
  split; [rewrite H|]; reflexivity.
Defined.

Lemma heuristic_ignores_ascii_case_witness :
  strings.isASCII "did:plc:toronto-user" = true
  /\ strings.ToUpper noCaseTables "did:plc:toronto-user" = "DID:PLC:TORONTO-USER"
  /\ fst (isLikelyCanadian noCaseTables NewCanadianGeographicFilter
            (strings.ToUpper noCaseTables "did:plc:toronto-user"))
     = fst (isLikelyCanadian noCaseTables NewCanadianGeographicFilter
              "did:plc:toronto-user").
Proof.
  split; [reflexivity|]. split; [reflexivity|].
  exact (proj2 (heuristic_ignores_ascii_case noCaseTables noCaseTables
                  "did:plc:toronto-user" eq_refl)).
Defined.

Lemma short_identifier_is_denied_witness :
  strings.isASCII "" = true
  /\ String.length "" < 6
  /\ isLikelyCanadian noCaseTables NewCanadianGeographicFilter ""
     = (false, setCached NewCanadianGeographicFilter "" false).
Proof.
  assert (Hlen : String.length "" < 6) by (simpl; lia).
  split; [reflexivity|]. split; [exact Hlen|].
  exact (short_identifier_is_denied noCaseTables NewCanadianGeographicFilter ""
           eq_refl Hlen eq_refl eq_refl).
Defined.

Lemma Validate_reads_flag_and_folded_code_witness :
  sameForValidate noCaseTables lowerCaseConfig upperCaseConfig
  /\ Validate noCaseTables lowerCaseConfig = Validate noCaseTables upperCaseConfig.
Proof.
  assert (Hsame : sameForValidate noCaseTables lowerCaseConfig upperCaseConfig)
    by (split; reflexivity).
  split; [exact Hsame|].
  exact (Validate_reads_flag_and_folded_code noCaseTables lowerCaseConfig
           upperCaseConfig eq_refl eq_refl Hsame).
Defined.

Lemma construct_after_reset_panics_witness :
  gateOpen processStart
  /\ NewSovereigntyMetrics processStart = (Returned (Some 0), builtOnce)
  /\ fst (NewSovereigntyMetrics (ResetSovereigntyMetricsForTesting builtOnce))
     = Panicked.
Proof.
  assert (Hopen : gateOpen processStart) by reflexivity.
  assert (Hnew : NewSovereigntyMetrics processStart = (Returned (Some 0), builtOnce))
    by (vm_compute; reflexivity).
  split; [exact Hopen|]. split; [exact Hnew|].
  destruct (construct_after_reset_panics processStart builtOnce (Some 0) Hopen Hnew)
    as (_ & _ & H & _).
  exact H.
Defined.


Lemma match_survives_embedding_witness :
  strings.isASCII "did:plc:" = true
  /\ strings.isASCII "Regina" = true
  /\ strings.isASCII "ld-phalange" = true
  /\ matchesKeyword noCaseTables "Regina" = true
  /\ matchesKeyword noCaseTables ("did:plc:" +:+ "Regina" +:+ "ld-phalange") = true.
Proof.
  split; [reflexivity|]. split; [reflexivity|]. split; [reflexivity|].
  split; [reflexivity|].
  exact (match_survives_embedding noCaseTables "did:plc:" "Regina" "ld-phalange"
           eq_refl eq_refl eq_refl eq_refl).
Defined.

Lemma scheduled_answers_are_justified_witness :
  goroutines (schedule noCaseTables newSystem (losingSchedule "did:plc:american-user"))
    !! 1 = Some (Querying "did:plc:american-user" (Finished false))
  /\ matchesKeyword noCaseTables "did:plc:american-user" = false
  /\ In (Override "did:plc:american-user") (losingSchedule "did:plc:american-user").
Proof.
  assert (H : goroutines (schedule noCaseTables newSystem
                            (losingSchedule "did:plc:american-user")) !! 1
              = Some (Querying "did:plc:american-user" (Finished false)))
    by reflexivity.
  split; [exact H|].
  destruct (scheduled_answers_are_justified noCaseTables
              (losingSchedule "did:plc:american-user") 1
              "did:plc:american-user" false H) as (_ & _ & Hfalse).
  split; [exact (Hfalse eq_refl)|].
  simpl. auto 10.
Defined.
